(** * FJE (Funny JSON Explorer): components.py and fje.py

    A shallow embedding of the node model, the builder, the iterator and
    the two renderers, over an explicit object heap.  Python objects are
    heap cells named by their address; a [Container] holds the addresses
    of its children, so that appending to a node through one reference is
    seen through every other reference to it, and so that what a render
    does to the node objects is part of what the model returns. *)

From Stdlib Require Import ZArith String Ascii DecimalString Lia.
From stdpp Require Import base list strings gmap.

Open Scope string_scope.
Open Scope list_scope.
Open Scope Z_scope.
Open Scope nat_scope.

(** ** Python strings

    A Python [str] is a sequence of code points.  It is kept here as the
    byte string of its UTF-8 encoding, so that the box glyphs of the source
    can be written as they are; [len] counts code points, that is the bytes
    which are not continuation bytes (10xxxxxx). *)

Definition is_continuation (c : ascii) : bool :=
  match c with
  | Ascii _ _ _ _ _ _ b6 b7 => b7 && negb b6
  end.

Fixpoint len (s : string) : nat :=
  match s with
  | EmptyString => 0
  | String c r => (if is_continuation c then 0 else 1) + len r
  end.

(** [s * n]: the string repeated; empty when [n] is zero or negative. *)
Fixpoint str_repeat (s : string) (n : nat) : string :=
  match n with
  | O => ""
  | S k => s +:+ str_repeat s k
  end.

Definition str_mul (s : string) (n : Z) : string := str_repeat s (Z.to_nat n).

(** [s.replace(old, new, count)] for a non-empty [old]: the occurrences are
    found from the left, without overlap; [count = None] replaces them all.
    [skip] is the number of bytes of a replaced occurrence still to be
    dropped.  In UTF-8 text an occurrence of the bytes of [old] starts and
    ends between code points, so the bytes are searched. *)
Fixpoint replace_from (old new : string) (count : option nat) (skip : nat)
    (s : string) : string :=
  match s with
  | EmptyString => ""
  | String c r =>
      match skip with
      | S k => replace_from old new count k r
      | O =>
          match count with
          | Some O => s
          | _ =>
              if String.prefix old s
              then new +:+ replace_from old new (pred <$> count)
                                     (String.length old - 1) r
              else String c (replace_from old new count 0 r)
          end
      end
  end.

Definition replace (s old new : string) (count : option nat) : string :=
  replace_from old new count 0 s.

(** ** Decoded JSON

    What [json.load] returns.  A mapping keeps its items in iteration
    order.  The builder looks at a value that is not a mapping only through
    [is None] and [str()], so a float and an array carry the text [str()]
    gives for them. *)

#[local] Unset Elimination Schemes.
Inductive json :=
| JNull
| JBool (b : bool)
| JInt (n : Z)
| JFloat (text : string)
| JStr (s : string)
| JArr (text : string)
| JObj (items : list (string * json)).
#[local] Set Elimination Schemes.

(** [str(data)] for a value that is not a mapping. *)
Definition str (data : json) : string :=
  match data with
  | JNull => "None"
  | JBool true => "True"
  | JBool false => "False"
  | JInt n => NilZero.string_of_int (Z.to_int n)
  | JFloat text => text
  | JStr s => s
  | JArr text => text
  | JObj _ => ""
  end.

Definition is_dict (data : json) : bool :=
  match data with JObj _ => true | _ => false end.

Definition is_None (data : json) : bool :=
  match data with JNull => true | _ => false end.

(** ** Objects and the heap *)

Abbreviation addr := nat.

(** The style a node was created under: [Tree] gives the classes
    TreeContainer and TreeLeaf, [Rectangle] gives RectangleContainer and
    RectangleLeaf. *)
Inductive style := Tree | Rectangle.

(** A Leaf object has no [children] attribute. *)
Inductive object :=
| Container (cls : style) (name icon : string) (children : list addr)
| Leaf (cls : style) (name icon : string).

Definition obj_name (o : object) : string :=
  match o with Container _ n _ _ => n | Leaf _ n _ => n end.

Definition obj_icon (o : object) : string :=
  match o with Container _ _ i _ => i | Leaf _ _ i => i end.

Definition obj_style (o : object) : style :=
  match o with Container s _ _ _ => s | Leaf s _ _ => s end.

Abbreviation heap := (list object).

(** A new object gets the next free address. *)
Definition alloc (o : object) (h : heap) : addr * heap :=
  (List.length h, h ++ [o]).

(** ** Container.add_child *)

Definition add_child (self child : addr) (h : heap) : heap :=
  match h !! self with
  | Some (Container s n i cs) => <[self := Container s n i (cs ++ [child])]> h
  | _ => h
  end.

(** ** StyleFactory, IconFamily *)

Record IconFamily := { container_icon : string; leaf_icon : string }.

Definition get_container_icon (f : IconFamily) : string := container_icon f.
Definition get_leaf_icon (f : IconFamily) : string := leaf_icon f.

Definition create_container (f : style) (name icon : string) (h : heap)
  : addr * heap := alloc (Container f name icon []) h.

Definition create_leaf (f : style) (name icon : string) (h : heap)
  : addr * heap := alloc (Leaf f name icon) h.

(** ** TreeBuilder *)

Record TreeBuilder := {
  style_factory : style;
  icon_family : IconFamily;
  root : option addr
}.

Definition new_TreeBuilder (f : style) (icons : IconFamily) : TreeBuilder :=
  {| style_factory := f; icon_family := icons; root := None |}.

Definition set_root (self : TreeBuilder) (node : addr) : TreeBuilder :=
  {| style_factory := style_factory self;
     icon_family := icon_family self;
     root := Some node |}.

(** [build_tree]: the builder and the heap are threaded through the
    recursive calls.  [self.root] holds the address of the first container
    created, so the children appended to that container afterwards are seen
    through it. *)
Fixpoint build_tree (data : json) (name : string) (self : TreeBuilder)
    (h : heap) : addr * TreeBuilder * heap :=
  match data with
  | JObj items =>
      let '(node, h) :=
        create_container (style_factory self) name
          (get_container_icon (icon_family self)) h in
      let self := match root self with
                  | None => set_root self node
                  | Some _ => self
                  end in
      let fix items_loop (items : list (string * json)) (self : TreeBuilder)
              (h : heap) : TreeBuilder * heap :=
        match items with
        | [] => (self, h)
        | (key, value) :: rest =>
            let '(child, self, h) := build_tree value key self h in
            items_loop rest self (add_child node child h)
        end in
      let '(self, h) := items_loop items self h in
      (node, self, h)
  | _ =>
      let '(leaf, h) :=
        create_leaf (style_factory self)
          (name +:+ (if is_None data then "" else ": " +:+ str data))
          (get_leaf_icon (icon_family self)) h in
      (leaf, self, h)
  end.

Definition get_result (self : TreeBuilder) : option addr := root self.

Definition default_icons : IconFamily :=
  {| container_icon := ""; leaf_icon := "" |}.

(** ** Running code: heap, standard output, exceptions

    A computation reads and writes the heap, appends the lines it prints to
    the standard output (one entry per call of [print]) and either returns
    or stops: with a Python exception, because the recursion budget of the
    model ran out, or because an address names no object (which no Python
    reference does). *)

Inductive exn := IndexError | AttributeError | TypeError.

Inductive stop := Raised (e : exn) | OutOfFuel | NoObject.

Inductive res (A : Type) :=
| Ok (a : A)
| Stop (s : stop).
Arguments Ok {A} a.
Arguments Stop {A} s.

Record world := World { objects : heap; stdout : list string }.

Definition M (A : Type) : Type := world -> res A * world.

Definition ret {A} (a : A) : M A := fun w => (Ok a, w).

Definition bind {A B} (m : M A) (k : A -> M B) : M B :=
  fun w =>
    match m w with
    | (Ok a, w') => k a w'
    | (Stop s, w') => (Stop s, w')
    end.

Notation "'do' x <- m ; k" := (bind m (fun x => k))
  (at level 10, x name, m at level 100, k at level 200,
   format "'[v' 'do'  x  <-  m ; '/' k ']'").
Notation "'do' ' p <- m ; k" := (bind m (fun x => match x with p => k end))
  (at level 10, p pattern, m at level 100, k at level 200).
Notation "m ;; k" := (bind m (fun _ => k))
  (at level 100, k at level 200, right associativity).

Definition raise {A} (e : exn) : M A := fun w => (Stop (Raised e), w).

Definition out_of_fuel {A} : M A := fun w => (Stop OutOfFuel, w).

Definition print (line : string) : M unit :=
  fun w => (Ok tt, World (objects w) (stdout w ++ [line])).

(** The object at an address. *)
Definition deref (a : addr) : M object :=
  fun w =>
    match objects w !! a with
    | Some o => (Ok o, w)
    | None => (Stop NoObject, w)
    end.

(** [a.children]: a Leaf has no such attribute. *)
Definition get_children (a : addr) : M (list addr) :=
  do o <- deref a;
  match o with
  | Container _ _ _ cs => ret cs
  | Leaf _ _ _ => raise AttributeError
  end.

(** [l[i]] *)
Definition index {A} (l : list A) (i : nat) : M A :=
  match l !! i with
  | Some x => ret x
  | None => raise IndexError
  end.

(** [a.children.pop(0)] *)
Definition pop_first_child (a : addr) : M addr :=
  do o <- deref a;
  match o with
  | Container s n i cs =>
      match cs with
      | c :: rest =>
          fun w => (Ok c, World (<[a := Container s n i rest]> (objects w))
                             (stdout w))
      | [] => raise IndexError
      end
  | Leaf _ _ _ => raise AttributeError
  end.

(** [for i, x in enumerate(l): body], counting from [i].  The list is the
    one read when the loop starts; the loops of the source call [draw] on
    the elements, and such a call leaves every list of children as it is
    ([draw_preserves] below). *)
Fixpoint for_enumerate {A} (body : nat -> A -> M unit) (i : nat) (l : list A)
  : M unit :=
  match l with
  | [] => ret tt
  | x :: rest => body i x ;; for_enumerate body (S i) rest
  end.

(** [[f(x) for x in l]], in order. *)
Fixpoint map_M {A B} (f : A -> M B) (l : list A) : M (list B) :=
  match l with
  | [] => ret []
  | x :: rest => do y <- f x; do ys <- map_M f rest; ret (y :: ys)
  end.

(** [max(l, default=d)] *)
Definition max_default (l : list Z) (d : Z) : Z :=
  match l with
  | [] => d
  | x :: rest => fold_left Z.max rest x
  end.

(** [f"{icon} {name}"] *)
Definition label (icon name : string) : string := icon +:+ " " +:+ name.

(** [i == len(l) - 1] *)
Definition at_end (i n : nat) : bool := (Z.of_nat i =? Z.of_nat n - 1)%Z.

(** ** The draw and max_length methods

    A call [child.draw(...)] is dispatched on the class of the object at
    [child].  Each method below takes the dispatching functions ([draw],
    [max_length]) for the calls it makes on other objects.  The third
    positional argument of a draw call is [Some max_length] when the caller
    passes it and [None] when it does not. *)

Section Methods.
Variable draw : addr -> string -> bool -> option Z -> M unit.
Variable max_length : addr -> Z -> M Z.

(** TreeContainer.draw(self, indent, is_last) *)
Definition TreeContainer_draw (self : addr) (indent : string)
    (is_last : bool) : M unit :=
  do o <- deref self;
  do new_indent <-
    (if String.eqb indent "r" then ret ""
     else
       let prefix := indent +:+ (if is_last then "└─" else "├─") in
       print (prefix +:+ obj_icon o +:+ " " +:+ obj_name o) ;;
       ret (indent +:+ (if is_last then "    " else "│   ")));
  do children <- get_children self;
  for_enumerate
    (fun i child =>
       do cs <- get_children self;
       draw child new_indent (at_end i (length cs)) None)
    0 children.

(** TreeLeaf.draw(self, indent, is_last) *)
Definition TreeLeaf_draw (self : addr) (indent : string) (is_last : bool)
  : M unit :=
  do o <- deref self;
  let prefix := indent +:+ (if is_last then "└─" else "├─") in
  print (prefix +:+ obj_icon o +:+ " " +:+ obj_name o).

(** RectangleContainer.draw(self, indent, is_last, max_length) *)
Definition RectangleContainer_draw (self : addr) (indent : string)
    (is_last : bool) (max_len : Z) : M unit :=
  do '(new_indent, is_last, max_len) <-
    (if String.eqb indent "r" then
       do cs <- get_children self;
       let is_last := (length cs =? 1)%nat in
       do max_len <- max_length self 0%Z;
       do cs <- get_children self;
       do first <- index cs 0;
       do o0 <- deref first;
       let line_length :=
         (max_len - Z.of_nat (len (label (obj_icon o0) (obj_name o0))))%Z in
       let prefix := "┌─" in
       let postfix := str_mul "─" line_length +:+ "─┐" in
       print (prefix +:+ obj_icon o0 +:+ " " +:+ obj_name o0 +:+ postfix) ;;
       let new_indent := "│   " in
       do grandchildren <- get_children first;
       for_enumerate
         (fun i child =>
            do cs <- get_children self;
            do first <- index cs 0;
            do gs <- get_children first;
            draw child new_indent (at_end i (length gs) && is_last)
              (Some max_len))
         0 grandchildren ;;
       pop_first_child self ;;
       let is_last := true in
       ret (new_indent, is_last, max_len)
     else
       do o <- deref self;
       let line_length :=
         (max_len
          - Z.of_nat (len (indent +:+ label (obj_icon o) (obj_name o))))%Z in
       let prefix := indent +:+ "├─" in
       let postfix := str_mul "─" line_length +:+ "─┤" in
       print (prefix +:+ obj_icon o +:+ " " +:+ obj_name o +:+ postfix) ;;
       let new_indent := indent +:+ "│   " in
       ret (new_indent, is_last, max_len));
  do children <- get_children self;
  for_enumerate
    (fun i child =>
       do cs <- get_children self;
       draw child new_indent (at_end i (length cs) && is_last)
         (Some max_len))
    0 children.

(** RectangleContainer.max_length(self, indent_length) *)
Definition RectangleContainer_max_length (self : addr) (indent_length : Z)
  : M Z :=
  do o <- deref self;
  let current_length :=
    (indent_length + Z.of_nat (len (label (obj_icon o) (obj_name o))))%Z in
  do children <- get_children self;
  do lengths <-
    map_M (fun child => max_length child (indent_length + 3)%Z) children;
  let children_max_length := max_default lengths 0%Z in
  ret (Z.max current_length children_max_length).

(** RectangleLeaf.draw(self, indent, is_last, max_length) *)
Definition RectangleLeaf_draw (self : addr) (indent : string)
    (is_last : bool) (max_len : Z) : M unit :=
  do o <- deref self;
  let line_length :=
    (max_len
     - Z.of_nat (len (indent +:+ label (obj_icon o) (obj_name o))))%Z in
  let prefix :=
    if is_last then
      let indent := replace indent "│   " "└───" (Some 1) in
      let indent := replace indent "│   " "┴───" None in
      if (len indent =? 0)%nat then indent +:+ "└─" else indent +:+ "┴─"
    else
      indent +:+ (if is_last && (len indent =? 0)%nat then "└─" else "├─") in
  let postfix :=
    str_mul "─" line_length +:+ (if is_last then "─┘" else "─┤") in
  print (prefix +:+ obj_icon o +:+ " " +:+ obj_name o +:+ postfix).

(** RectangleLeaf.max_length(self, indent_length) *)
Definition RectangleLeaf_max_length (self : addr) (indent_length : Z)
  : M Z :=
  do o <- deref self;
  ret (indent_length + Z.of_nat (len (label (obj_icon o) (obj_name o))))%Z.
End Methods.

(** [self.max_length(indent_length)]: only the Rectangle classes have the
    method. *)
Fixpoint max_length (fuel : nat) (self : addr) (indent_length : Z) : M Z :=
  match fuel with
  | O => out_of_fuel
  | S fuel =>
      do o <- deref self;
      match o with
      | Container Rectangle _ _ _ =>
          RectangleContainer_max_length (max_length fuel) self indent_length
      | Leaf Rectangle _ _ =>
          RectangleLeaf_max_length self indent_length
      | _ => raise AttributeError
      end
  end.

(** [self.draw(indent, is_last)] and [self.draw(indent, is_last,
    max_length)]: a Tree class takes no third argument; a Rectangle class
    defaults it to 0. *)
Fixpoint draw (fuel : nat) (self : addr) (indent : string) (is_last : bool)
    (max_len : option Z) : M unit :=
  match fuel with
  | O => out_of_fuel
  | S fuel =>
      do o <- deref self;
      match o, max_len with
      | Container Tree _ _ _, None =>
          TreeContainer_draw (draw fuel) self indent is_last
      | Leaf Tree _ _, None =>
          TreeLeaf_draw self indent is_last
      | Container Rectangle _ _ _, _ =>
          RectangleContainer_draw (draw fuel) (max_length fuel) self indent
            is_last (default 0%Z max_len)
      | Leaf Rectangle _ _, _ =>
          RectangleLeaf_draw self indent is_last (default 0%Z max_len)
      | _, Some _ => raise TypeError
      end
  end.

(** ** Iterators *)

Inductive iterator :=
| NoneIterator
| CompositeIterator (stack : list addr).

(** CompositeIterator(children): the top of the stack is the end of the
    list. *)
Definition new_CompositeIterator (children : list addr) : iterator :=
  CompositeIterator
    (match children with
     | [] => []
     | _ => [] ++ reverse children
     end).

Definition has_next (it : iterator) : bool :=
  match it with
  | NoneIterator => false
  | CompositeIterator stack => (0 <? length stack)%nat
  end.

(** [stack.pop()]: the last element and the list without it. *)
Definition pop {A} (stack : list A) : option (A * list A) :=
  match reverse stack with
  | [] => None
  | x :: rest => Some (x, reverse rest)
  end.

(** [it.next()]: [None] is the value Python's [None]. *)
Definition next (h : heap) (it : iterator) : option addr * iterator :=
  match it with
  | NoneIterator => (None, it)
  | CompositeIterator stack =>
      if has_next it then
        match pop stack with
        | Some (component, stack) =>
            match h !! component with
            | Some (Container _ _ _ children) =>
                (Some component, CompositeIterator (stack ++ reverse children))
            | _ => (Some component, CompositeIterator stack)
            end
        | None => (None, it)
        end
      else (None, it)
  end.

(** [self.create_iterator()] *)
Definition create_iterator (self : addr) : M iterator :=
  do o <- deref self;
  match o with
  | Container _ _ _ children => ret (new_CompositeIterator children)
  | Leaf _ _ _ => ret NoneIterator
  end.

(** ** DrawVisitor, accept, FunnyJsonExplorer.show *)

Definition visit_container (fuel : nat) (container : addr) (indent : string)
    (is_last : bool) : M unit :=
  draw fuel container indent is_last None ;;
  do iterator <- create_iterator container;
  ret tt.

(** [visit_leaf] has no default for [indent] and [is_last], which
    [Leaf.accept] does not pass. *)
Definition accept (fuel : nat) (self : addr) : M unit :=
  do o <- deref self;
  match o with
  | Container _ _ _ _ => visit_container fuel self "r" true
  | Leaf _ _ _ => raise TypeError
  end.

(** [show], from the decoded data on: build, take the builder's result and
    have it accept the visitor.  [None] has no attribute [accept]. *)
Definition show (fuel : nat) (builder : TreeBuilder) (data : json) : M unit :=
  fun w =>
    let '(_, builder, h) := build_tree data "root" builder (objects w) in
    let w := World h (stdout w) in
    match get_result builder with
    | Some root => accept fuel root w
    | None => raise AttributeError w
    end.

(** ** Node trees

    The tree a heap holds below an address, as a value: the Node tree of
    the specification.  One style holds for a whole tree. *)

#[local] Unset Elimination Schemes.
Inductive node :=
| NContainer (name icon : string) (children : list node)
| NLeaf (name icon : string).
#[local] Set Elimination Schemes.

Definition node_children (t : node) : list node :=
  match t with NContainer _ _ ts => ts | NLeaf _ _ => [] end.

(** The number of nodes of a tree, itself included. *)
Fixpoint size (t : node) : nat :=
  match t with
  | NContainer _ _ ts => S (list_sum (map size ts))
  | NLeaf _ _ => 1
  end.

Definition sizes (ts : list node) : nat := list_sum (map size ts).

(** The nodes of a tree in depth-first pre-order, itself first. *)
Fixpoint preorder (t : node) : list node :=
  t :: match t with
       | NContainer _ _ ts => flat_map preorder ts
       | NLeaf _ _ => []
       end.

(** The descendants of a node, in depth-first pre-order. *)
Definition descendants (t : node) : list node :=
  flat_map preorder (node_children t).

(** [repr f h a t]: in the heap [h] the object at [a] and the objects below
    it are the tree [t], all created under the style [f]. *)
#[local] Unset Elimination Schemes.
Inductive repr (f : style) (h : heap) : addr -> node -> Prop :=
| repr_leaf a n i :
    h !! a = Some (Leaf f n i) -> repr f h a (NLeaf n i)
| repr_container a n i cs ts :
    h !! a = Some (Container f n i cs) ->
    Forall2 (repr f h) cs ts ->
    repr f h a (NContainer n i ts).
#[local] Set Elimination Schemes.

(** The tree [build_tree] makes of a decoded value. *)
Fixpoint node_of (icons : IconFamily) (data : json) (name : string) : node :=
  match data with
  | JObj items =>
      NContainer name (container_icon icons)
        ((fix children (items : list (string * json)) : list node :=
            match items with
            | [] => []
            | (key, value) :: rest => node_of icons value key :: children rest
            end) items)
  | _ =>
      NLeaf (name +:+ (if is_None data then "" else ": " +:+ str data))
        (leaf_icon icons)
  end.

Definition nodes_of (icons : IconFamily) (items : list (string * json))
  : list node := map (fun kv => node_of icons kv.2 kv.1) items.

(** The objects of a tree laid out from address [base] on, in the order
    [build_tree] creates them: a node, then its subtrees one after the
    other. *)
Fixpoint child_addrs (base : addr) (ts : list node) : list addr :=
  match ts with
  | [] => []
  | t :: rest => base :: child_addrs (base + size t) rest
  end.

Fixpoint layout (f : style) (base : addr) (t : node) : list object :=
  match t with
  | NContainer n i ts =>
      Container f n i (child_addrs (S base) ts)
      :: (fix subtrees (base : addr) (ts : list node) : list object :=
            match ts with
            | [] => []
            | t :: rest => layout f base t ++ subtrees (base + size t) rest
            end) (S base) ts
  | NLeaf n i => [Leaf f n i]
  end.

Fixpoint layouts (f : style) (base : addr) (ts : list node) : list object :=
  match ts with
  | [] => []
  | t :: rest => layout f base t ++ layouts f (base + size t) rest
  end.

(** The loop of [build_tree] over the items of a mapping. *)
Fixpoint items_loop (node : addr) (items : list (string * json))
    (self : TreeBuilder) (h : heap) : TreeBuilder * heap :=
  match items with
  | [] => (self, h)
  | (key, value) :: rest =>
      let '(child, self, h) := build_tree value key self h in
      items_loop node rest self (add_child node child h)
  end.

(** [n] calls of [next], each with what [has_next] said before it. *)
Fixpoint take_next (h : heap) (n : nat) (it : iterator)
  : list (bool * option addr) * iterator :=
  match n with
  | O => ([], it)
  | S n =>
      let b := has_next it in
      let '(x, it) := next h it in
      let '(xs, it) := take_next h n it in
      ((b, x) :: xs, it)
  end.

(** ** Notions the properties are stated with *)

(** The builder after [build_tree data] made its node at [a]. *)
Definition builder_after (data : json) (self : TreeBuilder) (a : addr)
  : TreeBuilder :=
  match root self with
  | Some _ => self
  | None => if is_dict data then set_root self a else self
  end.

Definition build_tree_spec (data : json) : Prop :=
  forall name self h,
    build_tree data name self h
    = (length h, builder_after data self (length h),
       h ++ layout (style_factory self) (length h)
              (node_of (icon_family self) data name)).

(** The lines a Tree draw call prints for a node: one for the node, unless
    it is a container called with the indent "r", and one for each node
    below it. *)
Definition tree_line_count (t : node) (indent : string) : nat :=
  match t with
  | NContainer _ _ ts =>
      if String.eqb indent "r" then sizes ts else S (sizes ts)
  | NLeaf _ _ => 1
  end.

Definition tree_draw_ok (h : heap) (fuel : nat) (t : node) : Prop :=
  forall a indent is_last,
    repr Tree h a t -> size t <= fuel ->
    exists lines,
      length lines = tree_line_count t indent
      /\ forall out,
           draw fuel a indent is_last None (World h out)
           = (Ok tt, World h (out ++ lines)).

(** What the calls of [next] return while they succeed. *)
Definition yielded (addrs : list addr) : list (bool * option addr) :=
  map (fun a => (true, Some a)) addrs.

(** With the address of a tree on top of the stack, as many calls of [next]
    as the tree has nodes return its nodes in pre-order and leave the rest
    of the stack. *)
Definition iterates (f : style) (h : heap) (t : node) : Prop :=
  forall c stack,
    repr f h c t ->
    exists addrs,
      Forall2 (repr f h) addrs (preorder t)
      /\ take_next h (size t) (CompositeIterator (stack ++ [c]))
         = (yielded addrs, CompositeIterator stack).

(** [effect R m]: running [m] takes the heap to one related to it by [R],
    whether [m] returns or stops. *)
Definition effect {A} (R : heap -> heap -> Prop) (m : M A) : Prop :=
  forall w, R (objects w) (objects (m w).2).

Definition preserves {A} (m : M A) : Prop := effect eq m.

(** The heap is as before, or the first child of [self] was popped. *)
Definition popped (self : addr) (h h' : heap) : Prop :=
  h' = h
  \/ exists f n i c cs,
       h !! self = Some (Container f n i (c :: cs))
       /\ h' = <[self := Container f n i cs]> h.

(** [yields Q m]: what [m] returns satisfies [Q]. *)
Definition yields {A} (Q : A -> Prop) (m : M A) : Prop :=
  forall w a w', m w = (Ok a, w') -> Q a.

(** [refines m1 m2]: where [m1] does not run out of fuel, [m2] does what
    [m1] does. *)
Definition refines {A} (m1 m2 : M A) : Prop :=
  forall w r w', m1 w = (r, w') -> r <> Stop OutOfFuel -> m2 w = (r, w').

Definition iter_heap : heap :=
  [Container Tree "root" "" [1; 3]; Container Tree "a" "" [2];
   Leaf Tree "b: 1" ""; Leaf Tree "c" ""].

Definition iter_tree : node :=
  NContainer "root" "" [NContainer "a" "" [NLeaf "b: 1" ""]; NLeaf "c" ""].

Definition tree_heap : heap :=
  [Container Tree "root" "" [1]; Container Tree "a" "" [2];
   Leaf Tree "b: 1" ""].

Definition rectangle_builder : TreeBuilder :=
  new_TreeBuilder Rectangle default_icons.

(** {"a": {}, "b": 1} *)
Definition two_rows : json := JObj [("a", JObj []); ("b", JInt 1)].

(** {"x": 1, "y": 2} *)
Definition scenario_c : json := JObj [("x", JInt 1); ("y", JInt 2)].

(** The number of objects [build_tree] creates for a decoded value: one for
    the value and one for every value inside it. *)
Fixpoint json_nodes (data : json) : nat :=
  match data with
  | JObj items =>
      S ((fix total (items : list (string * json)) : nat :=
            match items with
            | [] => 0
            | (_, value) :: rest => json_nodes value + total rest
            end) items)
  | _ => 1
  end.

(** [o] has the class of the style [f] and the icon [icons] has for its
    kind. *)
Definition made_with (f : style) (icons : IconFamily) (o : object) : Prop :=
  match o with
  | Container s _ i _ => s = f /\ i = container_icon icons
  | Leaf s _ i => s = f /\ i = leaf_icon icons
  end.

(** ** load_icon_families, main

    From the decoded configuration, the parsed arguments and the decoded
    document on: reading the files and parsing the command line are outside.
    The configuration is the list of the items of a mapping from family
    names to mappings from strings to strings, in iteration order. *)

Inductive lookup_error := KeyError (key : string).

(** [d[key]] *)
Definition getitem {V} (d : gmap string V) (key : string)
  : lookup_error + V :=
  match d !! key with
  | Some v => inr v
  | None => inl (KeyError key)
  end.

(** IconFamily(icons['container_icon'], icons['leaf_icon']) *)
Definition new_IconFamily (icons : gmap string string)
  : lookup_error + IconFamily :=
  match getitem icons "container_icon" with
  | inl e => inl e
  | inr c =>
      match getitem icons "leaf_icon" with
      | inl e => inl e
      | inr l => inr {| container_icon := c; leaf_icon := l |}
      end
  end.

(** The loop of [load_icon_families] over the items of the configuration. *)
Fixpoint load_families (items : list (string * gmap string string))
    (icon_families : gmap string IconFamily)
  : lookup_error + gmap string IconFamily :=
  match items with
  | [] => inr icon_families
  | (family, icons) :: rest =>
      match new_IconFamily icons with
      | inl e => inl e
      | inr icon_family =>
          load_families rest (<[family := icon_family]> icon_families)
      end
  end.

Definition load_icon_families (config : list (string * gmap string string))
  : lookup_error + gmap string IconFamily :=
  load_families config {["default" := default_icons]}.

(** The parsed arguments. *)
Record Args := { args_file : string; args_style : string; args_icon : string }.

(** The arguments when only the file is given. *)
Definition default_args (file : string) : Args :=
  {| args_file := file; args_style := "tree"; args_icon := "default" |}.

Definition style_factories : gmap string style :=
  {["tree" := Tree; "rectangle" := Rectangle]}.

(** [main], after [parse_args]: a KeyError ends the run before anything is
    built or printed. *)
Definition main (fuel : nat) (args : Args)
    (config : list (string * gmap string string)) (data : json) (w : world)
  : lookup_error + res unit * world :=
  match load_icon_families config with
  | inl e => inl e
  | inr icon_families =>
      match getitem style_factories (args_style args) with
      | inl e => inl e
      | inr factory =>
          match getitem icon_families (args_icon args) with
          | inl e => inl e
          | inr icons => inr (show fuel (new_TreeBuilder factory icons) data w)
          end
      end
  end.

(** A family of the configuration has both icons. *)
Definition complete (item : string * gmap string string) : Prop :=
  is_Some (item.2 !! "container_icon") /\ is_Some (item.2 !! "leaf_icon").

(** ** The lines a render prints, read off the tree

    [tree_lines] follows TreeContainer.draw and TreeLeaf.draw over a tree
    value; a child is the last one when no sibling follows it. *)

Definition no_more {A} (rest : list A) : bool :=
  match rest with [] => true | _ => false end.

Fixpoint tree_lines (t : node) (indent : string) (is_last : bool)
  : list string :=
  match t with
  | NContainer n i ts =>
      let children (new_indent : string) :=
        (fix children (ts : list node) : list string :=
           match ts with
           | [] => []
           | t :: rest =>
               tree_lines t new_indent (no_more rest) ++ children rest
           end) ts in
      if String.eqb indent "r" then children ""
      else
        let prefix := indent +:+ (if is_last then "└─" else "├─") in
        (prefix +:+ i +:+ " " +:+ n)
        :: children (indent +:+ (if is_last then "    " else "│   "))
  | NLeaf n i =>
      let prefix := indent +:+ (if is_last then "└─" else "├─") in
      [prefix +:+ i +:+ " " +:+ n]
  end.

Fixpoint tree_children_lines (new_indent : string) (ts : list node)
  : list string :=
  match ts with
  | [] => []
  | t :: rest =>
      tree_lines t new_indent (no_more rest)
      ++ tree_children_lines new_indent rest
  end.

(** The nodes of a tree in pre-order, each with its depth below the node
    the walk starts from, which has depth [d]. *)
Fixpoint levels (d : nat) (t : node) : list (nat * node) :=
  (d, t) :: match t with
            | NContainer _ _ ts => flat_map (levels (S d)) ts
            | NLeaf _ _ => []
            end.

Definition node_name (t : node) : string :=
  match t with NContainer n _ _ => n | NLeaf n _ => n end.

Definition node_icon (t : node) : string :=
  match t with NContainer _ i _ => i | NLeaf _ i => i end.

Definition tree_draws (h : heap) (fuel : nat) (t : node) : Prop :=
  forall a indent is_last,
    repr Tree h a t -> size t <= fuel ->
    forall out,
      draw fuel a indent is_last None (World h out)
      = (Ok tt, World h (out ++ tree_lines t indent is_last)).

(** [line] is the line of the node [x] at depth [k] when the walk started
    at depth [d] under an indent of [base] code points: a prefix of four
    code points per level and two for the branch glyph, then the icon, a
    space and the name. *)
Definition line_of (base d : nat) (line : string) (kx : nat * node) : Prop :=
  exists prefix,
    line = prefix +:+ node_icon kx.2 +:+ " " +:+ node_name kx.2
    /\ len prefix + 4 * d = base + 4 * kx.1 + 2.

(** [measure] follows RectangleContainer.max_length and
    RectangleLeaf.max_length over a tree value. *)
Fixpoint measure (t : node) (indent_length : Z) : Z :=
  match t with
  | NContainer n i ts =>
      let current_length := (indent_length + Z.of_nat (len (label i n)))%Z in
      let children_max_length :=
        max_default (map (fun child => measure child (indent_length + 3)%Z) ts)
          0%Z in
      Z.max current_length children_max_length
  | NLeaf n i => (indent_length + Z.of_nat (len (label i n)))%Z
  end.

(** The line RectangleLeaf.draw prints. *)
Definition rect_leaf_line (n i indent : string) (is_last : bool) (max_len : Z)
  : string :=
  let line_length :=
    (max_len - Z.of_nat (len (indent +:+ label i n)))%Z in
  let prefix :=
    if is_last then
      let indent := replace indent "│   " "└───" (Some 1) in
      let indent := replace indent "│   " "┴───" None in
      if (len indent =? 0)%nat then indent +:+ "└─" else indent +:+ "┴─"
    else
      indent +:+ (if is_last && (len indent =? 0)%nat then "└─" else "├─") in
  let postfix :=
    str_mul "─" line_length +:+ (if is_last then "─┘" else "─┤") in
  prefix +:+ i +:+ " " +:+ n +:+ postfix.

(** The line RectangleContainer.draw prints when its indent is not "r". *)
Definition rect_container_line (n i indent : string) (max_len : Z) : string :=
  let line_length :=
    (max_len - Z.of_nat (len (indent +:+ label i n)))%Z in
  let prefix := indent +:+ "├─" in
  let postfix := str_mul "─" line_length +:+ "─┤" in
  prefix +:+ i +:+ " " +:+ n +:+ postfix.

(** The line RectangleContainer.draw prints for its first child when its
    indent is "r". *)
Definition rect_opener_line (n i : string) (max_len : Z) : string :=
  let line_length := (max_len - Z.of_nat (len (label i n)))%Z in
  let prefix := "┌─" in
  let postfix := str_mul "─" line_length +:+ "─┐" in
  prefix +:+ i +:+ " " +:+ n +:+ postfix.

(** [rect_lines] follows RectangleContainer.draw, for an indent that is not
    "r", and RectangleLeaf.draw over a tree value: a child is given
    [is_last] when no sibling follows it and its parent was given it. *)
Fixpoint rect_lines (t : node) (indent : string) (is_last : bool)
    (max_len : Z) : list string :=
  match t with
  | NContainer n i ts =>
      rect_container_line n i indent max_len
      :: (fix children (ts : list node) : list string :=
            match ts with
            | [] => []
            | t :: rest =>
                rect_lines t (indent +:+ "│   ") (no_more rest && is_last)
                  max_len
                ++ children rest
            end) ts
  | NLeaf n i => [rect_leaf_line n i indent is_last max_len]
  end.

Fixpoint rect_children_lines (new_indent : string) (is_last : bool)
    (max_len : Z) (ts : list node) : list string :=
  match ts with
  | [] => []
  | t :: rest =>
      rect_lines t new_indent (no_more rest && is_last) max_len
      ++ rect_children_lines new_indent is_last max_len rest
  end.

(** What RectangleContainer.draw prints when its indent is "r", for a root
    named [n] with the icon [i] whose first child is the Container
    [NContainer n0 i0 ts0] and whose other children are [rest]. *)
Definition rect_root_lines (n i n0 i0 : string) (ts0 rest : list node)
  : list string :=
  let max_len := measure (NContainer n i (NContainer n0 i0 ts0 :: rest)) 0 in
  rect_opener_line n0 i0 max_len
  :: rect_children_lines "│   " (no_more rest) max_len ts0
  ++ rect_children_lines "│   " true max_len rest.

Definition rect_draws (h : heap) (fuel : nat) (t : node) : Prop :=
  forall a indent is_last max_len,
    repr Rectangle h a t -> size t <= fuel ->
    String.eqb indent "r" = false ->
    forall out,
      draw fuel a indent is_last (Some max_len) (World h out)
      = (Ok tt, World h (out ++ rect_lines t indent is_last max_len)).

Definition measures (h : heap) (fuel : nat) (t : node) : Prop :=
  forall a indent_length out,
    repr Rectangle h a t -> size t <= fuel ->
    max_length fuel a indent_length (World h out)
    = (Ok (measure t indent_length), World h out).

(** The column the measure pass gives the label of a node at depth [k]:
    three columns per level, then the icon, a space and the name. *)
Definition reach (kx : nat * node) : Z :=
  (3 * Z.of_nat kx.1
   + Z.of_nat (len (label (node_icon kx.2) (node_name kx.2))))%Z.

(** The heap built under the rectangle style from {"a": {"b": 1}}. *)
Definition rect_heap_ab : heap :=
  [Container Rectangle "root" "" [1]; Container Rectangle "a" "" [2];
   Leaf Rectangle "b: 1" ""].

(** [s] without its first [k] bytes. *)
Fixpoint skip_bytes (k : nat) (s : string) : string :=
  match k, s with
  | S k, String _ r => skip_bytes k r
  | _, _ => s
  end.

(** The width of a rectangle row whose indent has [indent_len] code points
    and whose label has [label_len]: the two-glyph branch, the label, the
    padding, empty when the row is longer than [max_len], and the two-glyph
    border. *)
Definition row_width (max_len : Z) (indent_len label_len : nat) : nat :=
  indent_len + 2 + label_len
  + Z.to_nat (max_len - Z.of_nat (indent_len + label_len)) + 2.

(** [line] has the width of the row of the node [kx.2], drawn [kx.1 - d]
    levels below an indent of [base] code points. *)
Definition row_of (max_len : Z) (base d : nat) (line : string)
    (kx : nat * node) : Prop :=
  exists indent_len,
    indent_len + 4 * d = base + 4 * kx.1
    /\ len line
       = row_width max_len indent_len
           (len (label (node_icon kx.2) (node_name kx.2))).

(** With the objects of [t] laid out in [h] from the address on top of the
    stack on, as many calls of [next] as [t] has nodes return these
    addresses in increasing order and leave the rest of the stack. *)
Definition iterates_in_order (f : style) (t : node) : Prop :=
  forall h pre post stack,
    h = pre ++ layout f (length pre) t ++ post ->
    take_next h (size t) (CompositeIterator (stack ++ [length pre]))
    = (yielded (seq (length pre) (size t)), CompositeIterator stack).





(** * Properties *)

(** ** The model on small inputs *)

Example build_ex :
  build_tree (JObj [("x", JInt 1); ("y", JObj [("z", JNull)])]) "root"
    (new_TreeBuilder Tree default_icons) []
  = (0, set_root (new_TreeBuilder Tree default_icons) 0,
     [Container Tree "root" "" [1; 2]; Leaf Tree "x: 1" "";
      Container Tree "y" "" [3]; Leaf Tree "z" ""]).
Proof. reflexivity. Qed.

Example len_ex : len "│   " = 4 /\ len "┌─ x: 1────┐" = 12.
Proof. split; reflexivity. Qed.

Example replace_ex :
  replace "│   │   │   " "│   " "└───" (Some 1) = "└───│   │   "
  /\ replace "└───│   │   " "│   " "┴───" None = "└───┴───┴───".
Proof. split; reflexivity. Qed.

Example str_ex : str (JInt 30) = "30" /\ str (JInt (-5)) = "-5" /\ str (JInt 0) = "0".
Proof. repeat split; reflexivity. Qed.

(** ** Induction over nested values *)

Lemma json_ind (P : json -> Prop) :
  P JNull -> (forall b, P (JBool b)) -> (forall n, P (JInt n)) ->
  (forall s, P (JFloat s)) -> (forall s, P (JStr s)) ->
  (forall s, P (JArr s)) ->
  (forall items, Forall (fun kv => P kv.2) items -> P (JObj items)) ->
  forall data, P data.
Proof.
  intros HN HB HI HF HS HA HO.
  fix IH 1. intros [ | b | n | s | s | s | items];
    [exact HN | apply HB | apply HI | apply HF | apply HS | apply HA | ].
  apply HO. induction items as [ | [k v] rest IHrest]; constructor;
    [apply IH | exact IHrest].
Qed.

Lemma node_ind (P : node -> Prop) :
  (forall n i ts, Forall P ts -> P (NContainer n i ts)) ->
  (forall n i, P (NLeaf n i)) ->
  forall t, P t.
Proof.
  intros HC HL. fix IH 1. intros [n i ts | n i]; [ | apply HL].
  apply HC. induction ts as [ | t rest IHrest]; constructor;
    [apply IH | exact IHrest].
Qed.

Lemma node_of_JObj icons items name :
  node_of icons (JObj items) name
  = NContainer name (container_icon icons) (nodes_of icons items).
Proof.
  simpl. f_equal. induction items as [ | [k v] rest IH]; simpl; congruence.
Qed.

Lemma layout_container f base n i ts :
  layout f base (NContainer n i ts)
  = Container f n i (child_addrs (S base) ts) :: layouts f (S base) ts.
Proof.
  simpl. f_equal. generalize (S base).
  induction ts as [ | t rest IH]; intros b; simpl; [done | ].
  by rewrite IH.
Qed.

Lemma build_tree_JObj items name self h :
  build_tree (JObj items) name self h
  = let '(node, h) :=
      create_container (style_factory self) name
        (get_container_icon (icon_family self)) h in
    let self := match root self with
                | None => set_root self node
                | Some _ => self
                end in
    let '(self, h) := items_loop node items self h in
    (node, self, h).
Proof.
  simpl. f_equal.
  generalize (match root self with
              | Some _ => self
              | None => set_root self (length h)
              end).
  generalize (h ++ [Container (style_factory self) name
                      (get_container_icon (icon_family self)) []]).
  induction items as [ | [k v] rest IH]; intros h' self'; simpl; [done | ].
  destruct (build_tree v k self' h') as [[c s1] h1]. apply IH.
Qed.

(** ** What the builder leaves in the heap *)

Lemma length_layout f base t : length (layout f base t) = size t.
Proof.
  revert base. induction t as [n i ts IH | n i] using node_ind;
    intros base; [ | done].
  rewrite layout_container. simpl. f_equal. generalize (S base).
  induction IH as [ | t rest Ht _ IHrest]; intros b; simpl; [done | ].
  by rewrite length_app, Ht, IHrest.
Qed.

Lemma length_layouts f base ts : length (layouts f base ts) = sizes ts.
Proof.
  revert base. induction ts as [ | t rest IH]; intros base; simpl; [done | ].
  rewrite length_app, length_layout, IH. done.
Qed.

Lemma add_child_middle h0 f n i cs rest child :
  add_child (length h0) child (h0 ++ Container f n i cs :: rest)
  = h0 ++ Container f n i (cs ++ [child]) :: rest.
Proof.
  unfold add_child. rewrite list_lookup_middle by done.
  replace (length h0) with (length h0 + 0) at 1 by lia.
  by rewrite insert_app_r.
Qed.

Lemma items_loop_spec items :
  Forall (fun kv => build_tree_spec kv.2) items ->
  forall h0 n i cs done self,
    is_Some (root self) ->
    items_loop (length h0) items self
      (h0 ++ Container (style_factory self) n i cs :: done)
    = (self,
       h0 ++ Container (style_factory self) n i
               (cs ++ child_addrs (S (length h0) + length done)
                        (nodes_of (icon_family self) items))
          :: done ++ layouts (style_factory self)
                       (S (length h0) + length done)
                       (nodes_of (icon_family self) items)).
Proof.
  induction 1 as [ | [k v] rest Hv _ IH]; intros h0 n i cs done self Hroot;
    simpl.
  { by rewrite !app_nil_r. }
  rewrite (Hv k self). unfold builder_after.
  destruct Hroot as [r Hr]. rewrite Hr.
  assert (length (h0 ++ Container (style_factory self) n i cs :: done)
          = S (length h0 + length done)) as Hlen.
  { rewrite length_app. simpl. lia. }
  rewrite Hlen. rewrite <- app_assoc. simpl.
  rewrite add_child_middle.
  rewrite (IH h0 n i _ _ self) by (rewrite Hr; eauto).
  rewrite length_app, length_layout.
  replace (S (length h0) + (length done + size (node_of (icon_family self) v k)))
    with (S (length h0 + length done) + size (node_of (icon_family self) v k))
    by lia.
  by rewrite <- !app_assoc.
Qed.

Lemma build_tree_layout data : build_tree_spec data.
Proof.
  induction data as [ | b | n | s | s | s | items IH] using json_ind;
    intros name self h.
  1-6: unfold builder_after; simpl; by destruct (root self).
  rewrite build_tree_JObj, node_of_JObj, layout_container.
  unfold create_container, alloc, get_container_icon, builder_after.
  simpl is_dict. cbv iota.
  pose proof (items_loop_spec items IH h name (container_icon (icon_family self))
                [] []) as Hloop.
  simpl in Hloop. rewrite Nat.add_0_r in Hloop.
  destruct (root self) as [r | ] eqn:Hr.
  - rewrite (Hloop self) by (rewrite Hr; eauto). done.
  - specialize (Hloop (set_root self (length h))). simpl in Hloop.
    rewrite Hloop by eauto. done.
Qed.

Lemma repr_layouts f ts :
  Forall (fun t => forall h0 h1,
            repr f (h0 ++ layout f (length h0) t ++ h1) (length h0) t) ts ->
  forall pre post,
    Forall2 (repr f (pre ++ layouts f (length pre) ts ++ post))
      (child_addrs (length pre) ts) ts.
Proof.
  induction 1 as [ | t rest Ht _ IH]; intros pre post; simpl; constructor.
  - rewrite <- app_assoc. apply Ht.
  - specialize (IH (pre ++ layout f (length pre) t) post).
    rewrite length_app, length_layout in IH.
    by rewrite <- !app_assoc in *.
Qed.

Lemma repr_layout f t h0 h1 :
  repr f (h0 ++ layout f (length h0) t ++ h1) (length h0) t.
Proof.
  revert h0 h1. induction t as [n i ts IH | n i] using node_ind;
    intros h0 h1.
  - rewrite layout_container. econstructor.
    + simpl. by apply list_lookup_middle.
    + pose proof (repr_layouts f ts IH
                    (h0 ++ [Container f n i (child_addrs (S (length h0)) ts)])
                    h1) as H.
      rewrite length_app in H. simpl in H.
      rewrite Nat.add_1_r, <- app_assoc in H. exact H.
  - constructor. simpl. by apply list_lookup_middle.
Qed.

(** The tree of a decoded value is in the heap once [build_tree] is done. *)
Lemma build_tree_repr data name self h :
  let '(a, _, h') := build_tree data name self h in
  repr (style_factory self) h' a (node_of (icon_family self) data name).
Proof.
  rewrite build_tree_layout.
  pose proof (repr_layout (style_factory self)
                (node_of (icon_family self) data name) h []) as H.
  by rewrite app_nil_r in H.
Qed.

(** ** Running computations *)

Lemma bind_Ok {A B} (m : M A) (k : A -> M B) w a w' :
  m w = (Ok a, w') -> bind m k w = k a w'.
Proof. unfold bind. by intros ->. Qed.

Lemma bind_Stop {A B} (m : M A) (k : A -> M B) w s w' :
  m w = (Stop s, w') -> bind m k w = (Stop s, w').
Proof. unfold bind. by intros ->. Qed.

Lemma deref_Ok w a o : objects w !! a = Some o -> deref a w = (Ok o, w).
Proof. unfold deref. by intros ->. Qed.

Lemma get_children_Ok w a f n i cs :
  objects w !! a = Some (Container f n i cs) -> get_children a w = (Ok cs, w).
Proof.
  intros H. unfold get_children. by rewrite (bind_Ok _ _ _ _ _ (deref_Ok _ _ _ H)).
Qed.

Lemma length_append (a b : string) :
  String.length (a +:+ b) = String.length a + String.length b.
Proof. induction a as [ | c a IH]; simpl; [done | by rewrite IH]. Qed.

Lemma eqb_append_r (indent s : string) :
  2 <= String.length s -> String.eqb (indent +:+ s) "r" = false.
Proof.
  intros Hs. apply String.eqb_neq. intros Heq.
  apply (f_equal String.length) in Heq. rewrite length_append in Heq.
  simpl in Heq. lia.
Qed.

(** ** Tree-style drawing of a tree held in the heap *)

Lemma tree_line_count_below t indent :
  String.eqb indent "r" = false -> tree_line_count t indent = size t.
Proof. intros H. destruct t; simpl; [by rewrite H | done]. Qed.

Lemma tree_children_draw h fuel self n i cs_all new_indent ts :
  h !! self = Some (Container Tree n i cs_all) ->
  String.eqb new_indent "r" = false ->
  Forall (tree_draw_ok h fuel) ts ->
  forall cs, Forall2 (repr Tree h) cs ts -> sizes ts <= fuel ->
  forall i0, exists lines,
    length lines = sizes ts
    /\ forall out,
         for_enumerate
           (fun i child =>
              do cs <- get_children self;
              draw fuel child new_indent (at_end i (length cs)) None)
           i0 cs (World h out)
         = (Ok tt, World h (out ++ lines)).
Proof.
  intros Hself Hindent. induction 1 as [ | t rest Ht _ IH];
    intros cs Hcs Hfuel i0; inversion Hcs as [ | c ? cs' ? Hc Hcs' ]; subst.
  { exists []. split; [done | ]. intros out. simpl. by rewrite app_nil_r. }
  unfold sizes in *. simpl in Hfuel.
  destruct (Ht c new_indent (at_end i0 (length cs_all)) Hc) as (l1 & Hl1 & Hrun1);
    [lia | ].
  destruct (IH cs' Hcs' ltac:(lia) (S i0)) as (l2 & Hl2 & Hrun2).
  exists (l1 ++ l2). split.
  { rewrite length_app, Hl1, Hl2, tree_line_count_below by done. done. }
  intros out. simpl.
  erewrite bind_Ok;
    [ | erewrite bind_Ok;
        [apply Hrun1 | eapply get_children_Ok; exact Hself]].
  rewrite Hrun2. by rewrite app_assoc.
Qed.

Lemma draw_S fuel self indent is_last max_len :
  draw (S fuel) self indent is_last max_len
  = (do o <- deref self;
     match o, max_len with
     | Container Tree _ _ _, None =>
         TreeContainer_draw (draw fuel) self indent is_last
     | Leaf Tree _ _, None =>
         TreeLeaf_draw self indent is_last
     | Container Rectangle _ _ _, _ =>
         RectangleContainer_draw (draw fuel) (max_length fuel) self indent
           is_last (default 0%Z max_len)
     | Leaf Rectangle _ _, _ =>
         RectangleLeaf_draw self indent is_last (default 0%Z max_len)
     | _, Some _ => raise TypeError
     end).
Proof. reflexivity. Qed.

Lemma draw_TreeContainer fuel self indent is_last w n i cs :
  objects w !! self = Some (Container Tree n i cs) ->
  draw (S fuel) self indent is_last None w
  = TreeContainer_draw (draw fuel) self indent is_last w.
Proof. intros H. rewrite draw_S. by erewrite bind_Ok; [ | by apply deref_Ok]. Qed.

Lemma draw_TreeLeaf fuel self indent is_last w n i :
  objects w !! self = Some (Leaf Tree n i) ->
  draw (S fuel) self indent is_last None w
  = TreeLeaf_draw self indent is_last w.
Proof. intros H. rewrite draw_S. by erewrite bind_Ok; [ | by apply deref_Ok]. Qed.

Lemma draw_RectangleContainer fuel self indent is_last max_len w n i cs :
  objects w !! self = Some (Container Rectangle n i cs) ->
  draw (S fuel) self indent is_last max_len w
  = RectangleContainer_draw (draw fuel) (max_length fuel) self indent is_last
      (default 0%Z max_len) w.
Proof.
  intros H. rewrite draw_S. erewrite bind_Ok; [ | by apply deref_Ok].
  by destruct max_len.
Qed.

Lemma draw_RectangleLeaf fuel self indent is_last max_len w n i :
  objects w !! self = Some (Leaf Rectangle n i) ->
  draw (S fuel) self indent is_last max_len w
  = RectangleLeaf_draw self indent is_last (default 0%Z max_len) w.
Proof.
  intros H. rewrite draw_S. erewrite bind_Ok; [ | by apply deref_Ok].
  by destruct max_len.
Qed.

Lemma tree_draw_total h t : forall fuel, tree_draw_ok h fuel t.
Proof.
  induction t as [n i ts IH | n i] using node_ind;
    intros fuel a indent is_last Hrepr Hfuel;
    inversion Hrepr as [ ? ? ? Ha | ? ? ? cs ? Ha Hcs ]; subst;
    destruct fuel as [ | fuel]; simpl in Hfuel; try lia.
  - assert (Forall (tree_draw_ok h fuel) ts) as IH'.
    { eapply Forall_impl; [exact IH | ]. intros t Ht. apply Ht. }
    assert (forall new_indent,
               String.eqb new_indent "r" = false ->
               exists lines,
                 length lines = sizes ts
                 /\ forall out,
                      (do children <- get_children a;
                       for_enumerate
                         (fun i child =>
                            do cs <- get_children a;
                            draw fuel child new_indent
                              (at_end i (length cs)) None)
                         0 children) (World h out)
                      = (Ok tt, World h (out ++ lines))) as Hloop.
    { intros new_indent Hne.
      destruct (tree_children_draw h fuel a n i cs new_indent ts Ha Hne IH'
                  cs Hcs ltac:(unfold sizes; lia) 0) as (lines & Hlen & Hrun).
      exists lines. split; [done | ]. intros out.
      erewrite bind_Ok; [apply Hrun | eapply get_children_Ok; exact Ha]. }
    destruct (String.eqb indent "r") eqn:Hr.
    + destruct (Hloop "" eq_refl) as (lines & Hlen & Hrun).
      exists lines. split; [simpl; by rewrite Hr | ]. intros out.
      erewrite draw_TreeContainer by exact Ha. unfold TreeContainer_draw.
      erewrite bind_Ok; [ | by apply deref_Ok].
      rewrite Hr. erewrite bind_Ok; [ | reflexivity]. apply Hrun.
    + destruct (Hloop (indent +:+ (if is_last then "    " else "│   "))
                  ltac:(apply eqb_append_r; destruct is_last; simpl; lia))
        as (lines & Hlen & Hrun).
      eexists (_ :: lines). split; [simpl; by rewrite Hr, Hlen | ].
      intros out.
      erewrite draw_TreeContainer by exact Ha. unfold TreeContainer_draw.
      erewrite bind_Ok; [ | by apply deref_Ok].
      rewrite Hr. erewrite bind_Ok; [ | reflexivity].
      simpl. rewrite Hrun. by rewrite <- app_assoc.
  - eexists [_]. split; [done | ]. intros out.
    erewrite draw_TreeLeaf by exact Ha. unfold TreeLeaf_draw.
    erewrite bind_Ok; [ | by apply deref_Ok]. reflexivity.
Qed.

Lemma length_preorder t : length (preorder t) = size t.
Proof.
  induction t as [n i ts IH | n i] using node_ind; simpl; [ | done].
  f_equal. induction IH as [ | t rest Ht _ IHrest]; simpl; [done | ].
  by rewrite length_app, Ht, IHrest.
Qed.

Lemma length_descendants t : length (descendants t) = size t - 1.
Proof.
  pose proof (length_preorder t) as H.
  destruct t as [n i ts | n i]; unfold descendants; simpl in *; lia.
Qed.

(** Tree-style [draw] on the root of a tree, as the visitor calls it. *)
Lemma tree_draw_root h root n i ts fuel :
  repr Tree h root (NContainer n i ts) ->
  size (NContainer n i ts) <= fuel ->
  exists lines,
    length lines = length (descendants (NContainer n i ts))
    /\ forall out,
         draw fuel root "r" true None (World h out)
         = (Ok tt, World h (out ++ lines)).
Proof.
  intros Hrepr Hfuel.
  destruct (tree_draw_total h _ fuel root "r" true Hrepr Hfuel)
    as (lines & Hlen & Hrun).
  exists lines. split; [ | done].
  rewrite Hlen, length_descendants. simpl. unfold sizes. lia.
Qed.

Lemma show_built fuel builder items w :
  show fuel builder (JObj items) w
  = accept fuel (default (length (objects w)) (root builder))
      (World (objects w
              ++ layout (style_factory builder) (length (objects w))
                   (node_of (icon_family builder) (JObj items) "root"))
         (stdout w)).
Proof.
  unfold show. rewrite build_tree_layout. unfold builder_after, get_result.
  destruct (root builder) eqn:Hr; cbn [is_dict default]; cbv beta iota;
    [by rewrite Hr | done].
Qed.

Lemma accept_container fuel self w f n i cs r w' :
  objects w !! self = Some (Container f n i cs) ->
  draw fuel self "r" true None w = (r, w') ->
  objects w' !! self = Some (Container f n i cs) \/ r <> Ok tt ->
  accept fuel self w = (r, w').
Proof.
  intros Hself Hdraw Hafter. unfold accept, visit_container.
  erewrite bind_Ok; [ | by apply deref_Ok].
  destruct r as [[] | s].
  - erewrite bind_Ok; [ | exact Hdraw].
    destruct Hafter as [Hafter | ?]; [ | done].
    unfold create_iterator.
    erewrite bind_Ok; [ | erewrite bind_Ok; [ | by apply deref_Ok]; reflexivity].
    reflexivity.
  - by erewrite bind_Stop.
Qed.

(** C5: a tree built under the tree style from a mapping has one printed
    line for each of its non-root nodes: with [t] the tree built from the
    mapping, [show] (build, then draw on the root with the indent "r")
    returns normally and appends to the standard output exactly as many
    lines as [t] has descendants. *)
Theorem tree_style_line_count icons items fuel w0 root builder h :
  build_tree (JObj items) "root" (new_TreeBuilder Tree icons) (objects w0)
  = (root, builder, h) ->
  size (node_of icons (JObj items) "root") <= fuel ->
  get_result builder = Some root
  /\ repr Tree h root (node_of icons (JObj items) "root")
  /\ exists lines,
       show fuel (new_TreeBuilder Tree icons) (JObj items) w0
       = (Ok tt, World h (stdout w0 ++ lines))
       /\ length lines
          = length (descendants (node_of icons (JObj items) "root")).
Proof.
  intros Hbuild Hfuel. rewrite build_tree_layout in Hbuild.
  cbn [style_factory icon_family new_TreeBuilder] in Hbuild.
  remember (layout Tree (length (objects w0))
              (node_of icons (JObj items) "root")) as objs eqn:Hobjs.
  injection Hbuild as <- <- <-. subst objs.
  split; [done | ].
  pose proof (repr_layout Tree (node_of icons (JObj items) "root")
                (objects w0) []) as Hrepr.
  rewrite app_nil_r in Hrepr. split; [exact Hrepr | ].
  rewrite show_built.
  cbn [style_factory icon_family root new_TreeBuilder default]. revert Hrepr Hfuel. rewrite node_of_JObj. intros Hrepr Hfuel.
  destruct (tree_draw_root _ _ _ _ _ fuel Hrepr Hfuel) as (lines & Hlen & Hrun).
  exists lines. split; [ | done].
  inversion Hrepr as [ | ? ? ? cs ? Hroot Hcs ]; subst.
  eapply accept_container; [exact Hroot | apply Hrun | left; exact Hroot].
Qed.

Lemma tree_style_line_count_witness :
  exists lines,
    show 3 (new_TreeBuilder Tree default_icons)
      (JObj [("name", JStr "Alice"); ("age", JInt 30)]) (World [] [])
    = (Ok tt,
       World [Container Tree "root" "" [1; 2]; Leaf Tree "name: Alice" "";
              Leaf Tree "age: 30" ""] lines)
    /\ length lines = 2.
Proof.
  destruct (tree_style_line_count default_icons
              [("name", JStr "Alice"); ("age", JInt 30)] 3 (World [] [])
              0 (set_root (new_TreeBuilder Tree default_icons) 0)
              [Container Tree "root" "" [1; 2]; Leaf Tree "name: Alice" "";
               Leaf Tree "age: 30" ""] eq_refl ltac:(simpl; lia))
    as (_ & _ & lines & Hshow & Hlen).
  exists lines. split; [exact Hshow | exact Hlen].
Defined.

(** C10: tree-style drawing is repeatable.  On the tree built under the
    tree style from a mapping, [draw] on the root with its initial
    arguments returns normally, leaves the heap as it was and appends some
    lines to the standard output; called again, it appends the same lines
    again. *)
Theorem tree_draw_repeatable icons items fuel h0 out root builder h :
  build_tree (JObj items) "root" (new_TreeBuilder Tree icons) h0
  = (root, builder, h) ->
  size (node_of icons (JObj items) "root") <= fuel ->
  exists lines,
    draw fuel root "r" true None (World h out)
    = (Ok tt, World h (out ++ lines))
    /\ draw fuel root "r" true None (World h (out ++ lines))
       = (Ok tt, World h ((out ++ lines) ++ lines)).
Proof.
  intros Hbuild Hfuel.
  pose proof (build_tree_repr (JObj items) "root" (new_TreeBuilder Tree icons)
                h0) as Hrepr.
  rewrite Hbuild in Hrepr.
  cbn [style_factory icon_family new_TreeBuilder] in Hrepr.
  revert Hrepr Hfuel.
  rewrite node_of_JObj. intros Hrepr Hfuel.
  destruct (tree_draw_root _ _ _ _ _ fuel Hrepr Hfuel) as (lines & _ & Hrun).
  exists lines. split; apply Hrun.
Qed.

Lemma tree_draw_repeatable_witness :
  exists lines,
    draw 3 0 "r" true None
      (World [Container Tree "root" "" [1]; Container Tree "a" "" [2];
              Leaf Tree "b: 1" ""] [])
    = (Ok tt,
       World [Container Tree "root" "" [1]; Container Tree "a" "" [2];
              Leaf Tree "b: 1" ""] ([] ++ lines))
    /\ draw 3 0 "r" true None
         (World [Container Tree "root" "" [1]; Container Tree "a" "" [2];
                 Leaf Tree "b: 1" ""] ([] ++ lines))
       = (Ok tt,
          World [Container Tree "root" "" [1]; Container Tree "a" "" [2];
                 Leaf Tree "b: 1" ""] (([] ++ lines) ++ lines)).
Proof.
  apply (tree_draw_repeatable default_icons [("a", JObj [("b", JInt 1)])] 3
           [] [] 0 (set_root (new_TreeBuilder Tree default_icons) 0)
           [Container Tree "root" "" [1]; Container Tree "a" "" [2];
            Leaf Tree "b: 1" ""] eq_refl).
  simpl. lia.
Defined.

(** ** The builder *)

Lemma append_nil_r (s : string) : s +:+ "" = s.
Proof.
  induction s as [ | c s IH]; [done | ].
  change (String c (s +:+ "") = String c s). by f_equal.
Qed.

(** C4, as amended: the builder's result after the first [build_tree] call
    is the returned Container named "root" when the decoded value is a
    mapping; when it is anything else (a scalar, null) the call returns a
    Leaf and the builder's result stays [None]. *)
Theorem builder_root f icons data h0 :
  let '(node, builder, h) :=
    build_tree data "root" (new_TreeBuilder f icons) h0 in
  match data with
  | JObj items =>
      get_result builder = Some node
      /\ exists children,
           h !! node = Some (Container f "root" (container_icon icons) children)
           /\ length children = length items
  | _ =>
      get_result builder = None
      /\ exists name, h !! node = Some (Leaf f name (leaf_icon icons))
  end.
Proof.
  pose proof (build_tree_repr data "root" (new_TreeBuilder f icons) h0) as Hrepr.
  rewrite build_tree_layout in *.
  cbn [style_factory icon_family new_TreeBuilder] in *.
  destruct data as [ | b | n | s | s | s | items].
  1-6: split; [done | ]; inversion Hrepr; subst; eauto.
  split; [done | ]. rewrite node_of_JObj in *.
  inversion Hrepr as [ | ? ? ? cs ? Hroot Hcs ]; subst.
  exists cs. split; [exact Hroot | ].
  apply Forall2_length in Hcs. rewrite Hcs. unfold nodes_of.
  by rewrite length_map.
Qed.

(** C4 as stated fails for a top-level scalar: the builder has no result. *)
Lemma builder_root_scalar_counterexample :
  let '(node, builder, h) :=
    build_tree (JInt 1) "root" (new_TreeBuilder Tree default_icons) [] in
  get_result builder = None
  /\ h = [Leaf Tree "root: 1" ""]
  /\ ~ (exists r children,
          get_result builder = Some r
          /\ h !! r = Some (Container Tree "root" "" children)).
Proof.
  simpl. split; [done | ]. split; [done | ].
  intros (r & cs & Hr & _). discriminate Hr.
Qed.

Lemma Forall2_map_r {A B C} (P : A -> C -> Prop) (g : B -> C) l k :
  Forall2 P l (map g k) -> Forall2 (fun x y => P x (g y)) l k.
Proof.
  revert l. induction k as [ | y k IH]; intros l H; simpl in H;
    inversion H; subst; constructor; auto.
Qed.

(** C6: the children of the Container built from a mapping are, position
    by position, the trees of the mapping's items in iteration order: the
    object at index i of [children] is the tree built from the i-th key and
    its value (and so on below it, for every mapping inside). *)
Theorem children_in_key_order items name self h0 :
  let '(node, _, h) := build_tree (JObj items) name self h0 in
  exists children,
    h !! node
    = Some (Container (style_factory self) name
              (container_icon (icon_family self)) children)
    /\ Forall2
         (fun child kv =>
            repr (style_factory self) h child
              (node_of (icon_family self) kv.2 kv.1))
         children items.
Proof.
  pose proof (build_tree_repr (JObj items) name self h0) as Hrepr.
  destruct (build_tree (JObj items) name self h0) as [[node self'] h].
  rewrite node_of_JObj in Hrepr.
  inversion Hrepr as [ | ? ? ? cs ? Hnode Hcs ]; subst.
  exists cs. split; [exact Hnode | ].
  unfold nodes_of in Hcs. by apply Forall2_map_r in Hcs.
Qed.

(** C7: the Leaf built for a key and a value that is not a mapping is
    named key, ": ", str(value) when the value is not null, and just the
    key when it is null. *)
Theorem leaf_name_format data key self h0 :
  is_dict data = false ->
  let '(leaf, self', h) := build_tree data key self h0 in
  self' = self
  /\ h !! leaf
     = Some (Leaf (style_factory self)
               (if is_None data then key else key +:+ ": " +:+ str data)
               (leaf_icon (icon_family self))).
Proof.
  intros Hdata. pose proof (build_tree_repr data key self h0) as Hrepr.
  rewrite build_tree_layout in *. unfold builder_after. rewrite Hdata.
  split; [by destruct (root self) | ].
  destruct data as [ | b | n | s | s | s | items]; try discriminate Hdata;
    inversion Hrepr; subst; cbn [is_None] in *; rewrite ?append_nil_r in *;
    done.
Qed.

Lemma leaf_name_format_witness :
  (let '(leaf, _, h) :=
     build_tree (JInt 30) "age" (new_TreeBuilder Tree default_icons) [] in
   h !! leaf = Some (Leaf Tree "age: 30" ""))
  /\ (let '(leaf, _, h) :=
        build_tree JNull "nickname" (new_TreeBuilder Tree default_icons) [] in
      h !! leaf = Some (Leaf Tree "nickname" "")).
Proof.
  split.
  - apply (leaf_name_format (JInt 30) "age"
             (new_TreeBuilder Tree default_icons) [] eq_refl).
  - apply (leaf_name_format JNull "nickname"
             (new_TreeBuilder Tree default_icons) [] eq_refl).
Defined.

(** ** The iterator *)

Lemma pop_snoc {A} (stack : list A) (x : A) : pop (stack ++ [x]) = Some (x, stack).
Proof. unfold pop. by rewrite reverse_snoc, reverse_involutive. Qed.

Lemma has_next_snoc stack c : has_next (CompositeIterator (stack ++ [c])) = true.
Proof. simpl. rewrite length_app. simpl. apply Nat.ltb_lt. lia. Qed.

Lemma take_next_add h m n it :
  take_next h (m + n) it
  = let '(xs, it) := take_next h m it in
    let '(ys, it) := take_next h n it in
    (xs ++ ys, it).
Proof.
  revert it. induction m as [ | m IH]; intros it; simpl.
  { by destruct (take_next h n it). }
  destruct (next h it) as [x it1]. rewrite IH.
  destruct (take_next h m it1) as [xs it2].
  by destruct (take_next h n it2).
Qed.

Lemma iterates_children f h ts :
  Forall (iterates f h) ts ->
  forall cs stack,
    Forall2 (repr f h) cs ts ->
    exists addrs,
      Forall2 (repr f h) addrs (flat_map preorder ts)
      /\ take_next h (sizes ts) (CompositeIterator (stack ++ reverse cs))
         = (yielded addrs, CompositeIterator stack).
Proof.
  induction 1 as [ | t rest Ht _ IH]; intros cs stack Hcs;
    inversion Hcs as [ | c ? cs' ? Hc Hcs' ]; subst.
  { exists []. split; [constructor | ]. simpl. by rewrite app_nil_r. }
  rewrite reverse_cons, app_assoc.
  destruct (Ht c (stack ++ reverse cs') Hc) as (a1 & Ha1 & Hrun1).
  destruct (IH cs' stack Hcs') as (a2 & Ha2 & Hrun2).
  exists (a1 ++ a2). split.
  { simpl. by apply Forall2_app. }
  unfold sizes. simpl. rewrite take_next_add, Hrun1.
  unfold sizes in Hrun2. rewrite Hrun2. unfold yielded. by rewrite map_app.
Qed.

Lemma iterates_all f h t : iterates f h t.
Proof.
  induction t as [n i ts IH | n i] using node_ind; intros c stack Hrepr;
    inversion Hrepr as [ ? ? ? Hc | ? ? ? cs ? Hc Hcs ]; subst.
  - destruct (iterates_children f h ts IH cs stack Hcs) as (addrs & Ha & Hrun).
    exists (c :: addrs). split.
    { simpl. constructor; [exact Hrepr | exact Ha]. }
    cbn [size take_next]. rewrite has_next_snoc.
    unfold next. rewrite has_next_snoc, pop_snoc, Hc.
    fold (sizes ts). by rewrite Hrun.
  - exists [c]. split.
    { simpl. constructor; [exact Hrepr | constructor]. }
    cbn [size take_next]. rewrite has_next_snoc.
    unfold next. by rewrite has_next_snoc, pop_snoc, Hc.
Qed.

Lemma take_next_exhausted h m :
  take_next h m (CompositeIterator [])
  = (replicate m (false, None), CompositeIterator []).
Proof. induction m as [ | m IH]; simpl; [done | by rewrite IH]. Qed.

(** C8: a fresh iterator over a Container with K descendants.  The first K
    calls of [next] each find [has_next] true and return a node: the
    descendants, in depth-first pre-order.  After them [has_next] is false
    and stays so, and every further [next] returns [None] without
    raising. *)
Theorem iterator_exhaustion f h self name icon children out :
  repr f h self (NContainer name icon children) ->
  exists it addrs it_end,
    create_iterator self (World h out) = (Ok it, World h out)
    /\ take_next h (length (descendants (NContainer name icon children))) it
       = (yielded addrs, it_end)
    /\ Forall2 (repr f h) addrs (descendants (NContainer name icon children))
    /\ has_next it_end = false
    /\ forall m,
         take_next h m it_end = (replicate m (false, None), it_end).
Proof.
  intros Hrepr. inversion Hrepr as [ | ? ? ? cs ? Hself Hcs ]; subst.
  destruct (iterates_children f h children
              ltac:(apply Forall_forall; intros; apply iterates_all)
              cs [] Hcs) as (addrs & Haddrs & Hrun).
  exists (new_CompositeIterator cs), addrs, (CompositeIterator []).
  split; [ | split; [ | split; [exact Haddrs | split; [done | ] ] ] ].
  - unfold create_iterator. erewrite bind_Ok; [ | by apply deref_Ok]. done.
  - rewrite length_descendants. cbn [size]. rewrite Nat.sub_1_r. cbn [pred].
    fold (sizes children). rewrite <- Hrun. unfold new_CompositeIterator.
    by destruct cs.
  - apply take_next_exhausted.
Qed.

Example iter_heap_next :
  take_next iter_heap 5 (new_CompositeIterator [1; 3])
  = ([(true, Some 1); (true, Some 2); (true, Some 3);
      (false, None); (false, None)], CompositeIterator []).
Proof. reflexivity. Qed.

Lemma iterator_exhaustion_witness :
  repr Tree iter_heap 0 iter_tree
  /\ exists it addrs it_end,
       create_iterator 0 (World iter_heap []) = (Ok it, World iter_heap [])
       /\ take_next iter_heap (length (descendants iter_tree)) it
          = (yielded addrs, it_end)
       /\ Forall2 (repr Tree iter_heap) addrs (descendants iter_tree)
       /\ has_next it_end = false
       /\ forall m,
            take_next iter_heap m it_end = (replicate m (false, None), it_end).
Proof.
  assert (repr Tree iter_heap 0 iter_tree) as Hrepr.
  { repeat (econstructor; try reflexivity). }
  split; [exact Hrepr | ].
  exact (iterator_exhaustion Tree iter_heap 0 "root" ""
           [NContainer "a" "" [NLeaf "b: 1" ""]; NLeaf "c" ""] [] Hrepr).
Defined.

(** ** What a render does to the heap *)

Lemma popped_refl self h : popped self h h.
Proof. by left. Qed.

Lemma effect_bind_l {A B} (R : heap -> heap -> Prop) (m : M A)
    (k : A -> M B) :
  (forall h, R h h) ->
  preserves m -> (forall a, effect R (k a)) -> effect R (bind m k).
Proof.
  intros Hrefl Hm Hk w. unfold bind. specialize (Hm w).
  destruct (m w) as [[a | s] w1]; simpl in *; rewrite Hm.
  - apply Hk.
  - apply Hrefl.
Qed.

(** The continuation need only preserve the heap for the values [m]
    returns. *)
Lemma effect_bind_r {A B} (R : heap -> heap -> Prop) (m : M A)
    (k : A -> M B) :
  effect R m ->
  (forall w a w', m w = (Ok a, w') -> objects w' = objects (k a w').2) ->
  effect R (bind m k).
Proof.
  intros Hm Hk w. unfold bind. specialize (Hm w). specialize (Hk w).
  destruct (m w) as [[a | s] w1]; simpl in *; [ | exact Hm].
  by rewrite <- (Hk a w1).
Qed.

Lemma preserves_bind {A B} (m : M A) (k : A -> M B) :
  preserves m -> (forall a, preserves (k a)) -> preserves (bind m k).
Proof. intros Hm Hk. by apply effect_bind_l. Qed.

Lemma bind_inv {A B} (m : M A) (k : A -> M B) w b w' :
  bind m k w = (Ok b, w') ->
  exists a w1, m w = (Ok a, w1) /\ k a w1 = (Ok b, w').
Proof.
  unfold bind. destruct (m w) as [[a | s] w1]; [eauto | discriminate].
Qed.

Lemma preserves_ret {A} (a : A) : preserves (ret a).
Proof. by intros w. Qed.

Lemma preserves_raise {A} e : preserves (@raise A e).
Proof. by intros w. Qed.

Lemma preserves_out_of_fuel {A} : preserves (@out_of_fuel A).
Proof. by intros w. Qed.

Lemma preserves_print line : preserves (print line).
Proof. by intros w. Qed.

Lemma preserves_deref a : preserves (deref a).
Proof. intros w. unfold deref. by destruct (objects w !! a). Qed.

Lemma preserves_get_children a : preserves (get_children a).
Proof.
  apply preserves_bind; [apply preserves_deref | ].
  intros [? ? ? ? | ? ? ?]; [apply preserves_ret | apply preserves_raise].
Qed.

Lemma preserves_index {A} (l : list A) i : preserves (index l i).
Proof.
  unfold index. destruct (l !! i); [apply preserves_ret | apply preserves_raise].
Qed.

Lemma preserves_for_enumerate {A} (body : nat -> A -> M unit) l :
  (forall i x, preserves (body i x)) ->
  forall i, preserves (for_enumerate body i l).
Proof.
  intros Hbody. induction l as [ | x l IH]; intros i; simpl.
  - apply preserves_ret.
  - apply preserves_bind; [apply Hbody | intros _; apply IH].
Qed.

Lemma preserves_map_M {A B} (g : A -> M B) l :
  (forall x, preserves (g x)) -> preserves (map_M g l).
Proof.
  intros Hg. induction l as [ | x l IH]; simpl.
  - apply preserves_ret.
  - apply preserves_bind; [apply Hg | intros y].
    apply preserves_bind; [apply IH | intros ys; apply preserves_ret].
Qed.

Lemma effect_pop_first_child self : effect (popped self) (pop_first_child self).
Proof.
  intros w. unfold pop_first_child, bind, deref.
  destruct (objects w !! self) as [[f n i [ | c cs] | f n i] | ] eqn:Hself;
    simpl; try apply popped_refl.
  right. by exists f, n, i, c, cs.
Qed.

Create HintDb frame.
#[local] Hint Resolve preserves_ret preserves_raise preserves_out_of_fuel
  preserves_print preserves_deref preserves_get_children preserves_index
  : frame.

Ltac frame_step :=
  first
    [ solve [auto with frame]
    | apply preserves_for_enumerate; intros ? ?
    | apply preserves_map_M; intros ?
    | apply preserves_bind; [ | intros ? ] ].

Lemma preserves_max_length fuel :
  forall self indent_length, preserves (max_length fuel self indent_length).
Proof.
  induction fuel as [ | fuel IH]; intros self indent_length; simpl.
  { apply preserves_out_of_fuel. }
  apply preserves_bind; [apply preserves_deref | ].
  intros [[ | ] n i cs | [ | ] n i]; try apply preserves_raise.
  - unfold RectangleContainer_max_length. repeat frame_step.
  - unfold RectangleLeaf_max_length. repeat frame_step.
Qed.

Lemma yields_ret {A} (Q : A -> Prop) a : Q a -> yields Q (ret a).
Proof. intros Ha w a' w' [= <- _]. exact Ha. Qed.

Lemma yields_bind {A B} (Q : B -> Prop) (m : M A) (k : A -> M B) :
  (forall a, yields Q (k a)) -> yields Q (bind m k).
Proof.
  intros Hk w b w' Hrun. apply bind_inv in Hrun as (a & w1 & _ & Hrun).
  by eapply Hk.
Qed.

Lemma preserves_bind_yields {A B} (Q : A -> Prop) (m : M A) (k : A -> M B) :
  preserves m -> yields Q m -> (forall a, Q a -> preserves (k a)) ->
  preserves (bind m k).
Proof.
  intros Hm HQ Hk w. unfold bind. specialize (Hm w). specialize (HQ w).
  destruct (m w) as [[a | s] w1]; simpl in *; [ | exact Hm].
  rewrite Hm. apply Hk. by eapply HQ.
Qed.

Section MethodFrames.
Variable draw_rec : addr -> string -> bool -> option Z -> M unit.
Variable max_length_rec : addr -> Z -> M Z.
Hypothesis draw_rec_preserves :
  forall self indent is_last max_len,
    String.eqb indent "r" = false ->
    preserves (draw_rec self indent is_last max_len).
Hypothesis max_length_rec_preserves :
  forall self indent_length, preserves (max_length_rec self indent_length).

Lemma preserves_TreeLeaf_draw self indent is_last :
  preserves (TreeLeaf_draw self indent is_last).
Proof. unfold TreeLeaf_draw. repeat frame_step. Qed.

Lemma preserves_RectangleLeaf_draw self indent is_last max_len :
  preserves (RectangleLeaf_draw self indent is_last max_len).
Proof. unfold RectangleLeaf_draw. repeat frame_step. Qed.

(** A TreeContainer draws its children with an indent that is not "r",
    whatever its own indent is. *)
Lemma preserves_TreeContainer_draw self indent is_last :
  preserves (TreeContainer_draw draw_rec self indent is_last).
Proof.
  unfold TreeContainer_draw.
  apply preserves_bind; [apply preserves_deref | intros o].
  apply (preserves_bind_yields (fun s => String.eqb s "r" = false)).
  - destruct (String.eqb indent "r"); repeat frame_step.
  - destruct (String.eqb indent "r").
    + by apply yields_ret.
    + apply yields_bind. intros _. apply yields_ret, eqb_append_r.
      destruct is_last; simpl; lia.
  - intros new_indent Hindent. repeat frame_step.
Qed.

(** The loop over the children of a RectangleContainer. *)
Lemma preserves_children_loop self el :
  String.eqb el.1.1 "r" = false ->
  preserves
    (do children <- get_children self;
     for_enumerate
       (fun i child =>
          do cs <- get_children self;
          draw_rec child el.1.1 (at_end i (length cs) && el.1.2)
            (Some el.2))
       0 children).
Proof. intros Hindent. repeat frame_step. Qed.

Lemma preserves_RectangleContainer_draw self indent is_last max_len :
  String.eqb indent "r" = false ->
  preserves (RectangleContainer_draw draw_rec max_length_rec self indent
               is_last max_len).
Proof.
  intros Hindent. unfold RectangleContainer_draw. rewrite Hindent.
  apply (preserves_bind_yields (fun el => String.eqb el.1.1 "r" = false)).
  - repeat frame_step.
  - repeat (apply yields_bind; intros ?).
    apply yields_ret, eqb_append_r. simpl. lia.
  - intros [[new_indent is_last'] max_len'] Hnew.
    by apply (preserves_children_loop self (new_indent, is_last', max_len')).
Qed.

(** Called with the indent "r", a RectangleContainer pops its first
    child and writes nothing else. *)
Lemma effect_RectangleContainer_draw_root self is_last max_len :
  effect (popped self)
    (RectangleContainer_draw draw_rec max_length_rec self "r" is_last
       max_len).
Proof.
  unfold RectangleContainer_draw. simpl String.eqb. cbv iota.
  apply effect_bind_r.
  - repeat (apply effect_bind_l;
            [apply popped_refl
            | first [ solve [auto with frame]
                    | repeat frame_step; by apply draw_rec_preserves ]
            | intros ? ]).
    apply effect_bind_r; [apply effect_pop_first_child | ].
    intros w0 r0 w1 _. apply preserves_ret.
  - intros w [[new_indent is_last'] max_len'] w' Hrun.
    assert (String.eqb new_indent "r" = false) as Hnew.
    { repeat (apply bind_inv in Hrun as (? & ? & _ & Hrun)).
      by injection Hrun as <- _ _ _. }
    apply (preserves_children_loop self (new_indent, is_last', max_len')
             Hnew w').
Qed.
End MethodFrames.

(** A draw call whose indent is not "r" writes nothing to the heap. *)
Lemma draw_preserves fuel :
  forall self indent is_last max_len,
    String.eqb indent "r" = false ->
    preserves (draw fuel self indent is_last max_len).
Proof.
  induction fuel as [ | fuel IH]; intros self indent is_last max_len Hindent.
  { apply preserves_out_of_fuel. }
  rewrite draw_S. apply preserves_bind; [apply preserves_deref | ].
  intros [[ | ] n i cs | [ | ] n i]; destruct max_len as [ml | ];
    try apply preserves_raise;
    first [ apply preserves_TreeContainer_draw; exact IH
          | apply preserves_TreeLeaf_draw
          | apply preserves_RectangleLeaf_draw
          | apply preserves_RectangleContainer_draw;
            first [exact IH | exact Hindent | apply preserves_max_length] ].
Qed.

(** Whatever its arguments, a draw call leaves the heap as it was or pops
    the first child of the object it is called on. *)
Lemma draw_effect fuel self indent is_last max_len :
  effect (popped self) (draw fuel self indent is_last max_len).
Proof.
  destruct (String.eqb indent "r") eqn:Hindent.
  2: { intros w. left. symmetry. by apply draw_preserves. }
  apply String.eqb_eq in Hindent as ->.
  destruct fuel as [ | fuel]; [intros w; apply popped_refl | ].
  rewrite draw_S.
  apply effect_bind_l; [apply popped_refl | apply preserves_deref | ].
  intros [[ | ] n i cs | [ | ] n i]; destruct max_len as [ml | ];
    try (intros w; left; symmetry;
         first [ apply preserves_raise
               | apply preserves_TreeContainer_draw; apply draw_preserves
               | apply preserves_TreeLeaf_draw
               | apply preserves_RectangleLeaf_draw ]).
  all: apply effect_RectangleContainer_draw_root;
    first [apply draw_preserves | apply preserves_max_length].
Qed.

(** C9, as amended.  A draw call on an object of a Tree class leaves the
    heap, and so every node's name, icon and children, as it was.  A draw
    call on any object leaves the heap as it was unless it is the call on
    a RectangleContainer with the indent "r" (the root of a rectangle-style
    render): then the one change it can make is to remove the first child
    from that container's children; its name, its icon, the rest of its
    children and every other node stay as they were. *)
Theorem render_frame fuel self indent is_last max_len w :
  let h := objects w in
  let h' := objects (draw fuel self indent is_last max_len w).2 in
  (forall o, h !! self = Some o -> obj_style o = Tree -> h' = h)
  /\ (h' = h
      \/ indent = "r"
         /\ exists name icon first rest,
              h !! self = Some (Container Rectangle name icon (first :: rest))
              /\ h' = <[self := Container Rectangle name icon rest]> h).
Proof.
  intros h h'.
  assert (h' = h
          \/ indent = "r"
             /\ exists name icon first rest,
                  h !! self
                  = Some (Container Rectangle name icon (first :: rest))
                  /\ h' = <[self := Container Rectangle name icon rest]> h)
    as Hframe.
  { destruct (String.eqb indent "r") eqn:Hindent.
    2: { left. symmetry. by apply draw_preserves. }
    apply String.eqb_eq in Hindent as ->.
    destruct (draw_effect fuel self "r" is_last max_len w)
      as [Heq | (f & n & i & c & cs & Hself & Hpop)]; [by left | ].
    destruct f.
    - left. subst h h'. destruct fuel as [ | fuel]; [done | ].
      destruct max_len as [ml | ].
      + rewrite draw_S. unfold bind, deref. by rewrite Hself.
      + erewrite draw_TreeContainer by exact Hself. symmetry.
        apply preserves_TreeContainer_draw. apply draw_preserves.
    - right. split; [done | ]. by exists n, i, c, cs. }
  split; [ | exact Hframe].
  intros o Ho Hstyle.
  destruct Hframe as [Heq | (_ & n & i & c & cs & Hself & _)]; [exact Heq | ].
  subst h. rewrite Hself in Ho. injection Ho as <-. discriminate Hstyle.
Qed.

Lemma render_frame_witness :
  objects (draw 3 0 "r" true None (World tree_heap [])).2 = tree_heap.
Proof.
  apply (proj1 (render_frame 3 0 "r" true None (World tree_heap []))
           (Container Tree "root" "" [1]) eq_refl eq_refl).
Defined.

(** C9 as stated fails under the rectangle style: on the tree built from
    {"a": {"b": 1}} the render returns normally and the root has lost its
    only child. *)
Lemma render_frame_rectangle_counterexample :
  let '(root, _, h) :=
    build_tree (JObj [("a", JObj [("b", JInt 1)])]) "root"
      (new_TreeBuilder Rectangle default_icons) [] in
  let '(r, w') := draw 4 root "r" true None (World h []) in
  r = Ok tt
  /\ h !! root = Some (Container Rectangle "root" "" [1])
  /\ objects w' !! root = Some (Container Rectangle "root" "" [])
  /\ objects w' <> h.
Proof.
  vm_compute. repeat split; try reflexivity. discriminate.
Qed.

(** ** More fuel changes nothing once a run has finished *)

Lemma refines_refl {A} (m : M A) : refines m m.
Proof. by intros w r w' H _. Qed.

Lemma refines_bind {A B} (m1 m2 : M A) (k1 k2 : A -> M B) :
  refines m1 m2 -> (forall a, refines (k1 a) (k2 a)) ->
  refines (bind m1 k1) (bind m2 k2).
Proof.
  intros Hm Hk w r w'. unfold bind. specialize (Hm w).
  destruct (m1 w) as [[a | s] w1].
  - rewrite (Hm (Ok a) w1 eq_refl ltac:(discriminate)). apply Hk.
  - intros [= <- <-] Hfin.
    assert (@Stop A s <> Stop OutOfFuel) as Hfin' by congruence.
    by rewrite (Hm (Stop s) w1 eq_refl Hfin').
Qed.

Lemma refines_for_enumerate {A} (b1 b2 : nat -> A -> M unit) l :
  (forall i x, refines (b1 i x) (b2 i x)) ->
  forall i, refines (for_enumerate b1 i l) (for_enumerate b2 i l).
Proof.
  intros Hb. induction l as [ | x l IH]; intros i; simpl.
  - apply refines_refl.
  - apply refines_bind; [apply Hb | intros _; apply IH].
Qed.

Lemma refines_map_M {A B} (g1 g2 : A -> M B) l :
  (forall x, refines (g1 x) (g2 x)) -> refines (map_M g1 l) (map_M g2 l).
Proof.
  intros Hg. induction l as [ | x l IH]; simpl.
  - apply refines_refl.
  - apply refines_bind; [apply Hg | intros y].
    apply refines_bind; [apply IH | intros ys; apply refines_refl].
Qed.

Ltac refines_step :=
  first
    [ assumption
    | match goal with
      | H : forall _, _ |- _ => apply H
      end
    | apply refines_for_enumerate; intros ? ?
    | apply refines_map_M; intros ?
    | apply refines_bind; [ | intros ? ]
    | match goal with
      | |- refines (match ?x with _ => _ end) _ => destruct x
      | |- refines (if ?b then _ else _) _ => destruct b
      end
    | apply refines_refl ].

Lemma max_length_fuel_S fuel :
  forall self indent_length,
    refines (max_length fuel self indent_length)
      (max_length (S fuel) self indent_length).
Proof.
  induction fuel as [ | fuel IH]; intros self indent_length.
  { intros w r w' [= <- _] Hfin. done. }
  change (max_length (S (S fuel)) self indent_length)
    with (do o <- deref self;
          match o with
          | Container Rectangle _ _ _ =>
              RectangleContainer_max_length (max_length (S fuel)) self
                indent_length
          | Leaf Rectangle _ _ => RectangleLeaf_max_length self indent_length
          | _ => raise AttributeError
          end).
  change (max_length (S fuel) self indent_length)
    with (do o <- deref self;
          match o with
          | Container Rectangle _ _ _ =>
              RectangleContainer_max_length (max_length fuel) self
                indent_length
          | Leaf Rectangle _ _ => RectangleLeaf_max_length self indent_length
          | _ => raise AttributeError
          end).
  apply refines_bind; [apply refines_refl | ].
  intros [[ | ] n i cs | [ | ] n i]; try apply refines_refl.
  unfold RectangleContainer_max_length. repeat refines_step.
Qed.

Lemma draw_fuel_S fuel :
  forall self indent is_last max_len,
    refines (draw fuel self indent is_last max_len)
      (draw (S fuel) self indent is_last max_len).
Proof.
  induction fuel as [ | fuel IH]; intros self indent is_last max_len.
  { intros w r w' [= <- _] Hfin. done. }
  rewrite (draw_S (S fuel)), (draw_S fuel).
  apply refines_bind; [apply refines_refl | ].
  pose proof (max_length_fuel_S fuel) as Hmax.
  intros [[ | ] n i cs | [ | ] n i]; destruct max_len as [ml | ];
    try apply refines_refl.
  - unfold TreeContainer_draw. repeat refines_step.
  - unfold RectangleContainer_draw. repeat refines_step.
  - unfold RectangleContainer_draw. repeat refines_step.
Qed.

Lemma draw_fuel_le fuel fuel' self indent is_last max_len :
  fuel <= fuel' ->
  refines (draw fuel self indent is_last max_len)
    (draw fuel' self indent is_last max_len).
Proof.
  induction 1 as [ | fuel' _ IH]; [apply refines_refl | ].
  intros w r w' Hrun Hfin. apply draw_fuel_S; [by apply IH | exact Hfin].
Qed.

(** A run of [show] that finished with some fuel gives the same with any
    more. *)
Lemma show_fuel_le fuel fuel' builder data :
  fuel <= fuel' -> refines (show fuel builder data) (show fuel' builder data).
Proof.
  intros Hle w r w'. unfold show.
  destruct (build_tree data "root" builder (objects w)) as [[a b] h].
  destruct (get_result b) as [root | ]; [ | done].
  revert r w'. generalize (World h (stdout w)).
  change (refines (accept fuel root) (accept fuel' root)).
  unfold accept, visit_container.
  apply refines_bind; [apply refines_refl | intros o].
  destruct o; [ | apply refines_refl].
  apply refines_bind; [by apply draw_fuel_le | intros _; apply refines_refl].
Qed.

Lemma max_length_fuel_le fuel fuel' self indent_length :
  fuel <= fuel' ->
  refines (max_length fuel self indent_length)
    (max_length fuel' self indent_length).
Proof.
  induction 1 as [ | fuel' _ IH]; [apply refines_refl | ].
  intros w r w' Hrun Hfin.
  apply max_length_fuel_S; [by apply IH | exact Hfin].
Qed.

(** ** Rectangle-style rendering on small inputs *)

(** C1 fails on the code at {"a": {}, "b": 1} with the default icons: the
    measure pass returns 8, the opener is 12 columns wide (8 and the border
    overhead 4) and the closing row is 13 columns wide.  The row for "b" is
    measured with 3 columns of indent and drawn with the 4 of "│   ". *)
Theorem rectangle_widths_differ fuel :
  let h := [Container Rectangle "root" "" [1; 2];
            Container Rectangle "a" "" []; Leaf Rectangle "b: 1" ""] in
  build_tree two_rows "root" rectangle_builder []
  = (0, set_root rectangle_builder 0, h)
  /\ max_length (2 + fuel) 0 0 (World h []) = (Ok 8%Z, World h [])
  /\ exists lines h',
       show (3 + fuel) rectangle_builder two_rows (World [] [])
       = (Ok tt, World h' lines)
       /\ lines = ["┌─ a───────┐"; "└───┴─ b: 1─┘"]
       /\ map len lines = [12; 13].
Proof.
  intros h. split; [reflexivity | ]. split.
  - apply (max_length_fuel_le 2); [lia | by vm_compute | discriminate].
  - do 2 eexists. split; [ | split; reflexivity].
    apply (show_fuel_le 3); [lia | by vm_compute | discriminate].
Qed.

(** C2 fails on the code under the rectangle style: for the empty mapping
    the root draw raises IndexError at [self.children[0]] before it prints
    anything, and for {"x": 1}, whose first child is a Leaf, it prints the
    opener and raises AttributeError at [self.children[0].children]. *)
Theorem rectangle_draw_raises fuel :
  show (2 + fuel) rectangle_builder (JObj []) (World [] [])
  = (Stop (Raised IndexError), World [Container Rectangle "root" "" []] [])
  /\ show (3 + fuel) rectangle_builder (JObj [("x", JInt 1)]) (World [] [])
     = (Stop (Raised AttributeError),
        World [Container Rectangle "root" "" [1]; Leaf Rectangle "x: 1" ""]
          ["┌─ x: 1────┐"]).
Proof.
  split.
  - apply (show_fuel_le 2); [lia | by vm_compute | discriminate].
  - apply (show_fuel_le 3); [lia | by vm_compute | discriminate].
Qed.

(** C3 fails on the code: for {"x": 1, "y": 2} the opener is printed as the
    claim says, 12 columns wide for a measured width of 8, and then the
    draw raises AttributeError at [self.children[0].children]: the opener
    is the only line, no row for "y" and no closing line follow. *)
Theorem scenario_c_stops_after_opener fuel :
  show (3 + fuel) rectangle_builder scenario_c (World [] [])
  = (Stop (Raised AttributeError),
     World [Container Rectangle "root" "" [1; 2]; Leaf Rectangle "x: 1" "";
            Leaf Rectangle "y: 2" ""]
       ["┌─ x: 1────┐"]).
Proof.
  apply (show_fuel_le 3); [lia | by vm_compute | discriminate].
Qed.

(** * Further properties of the code *)

(** ** TreeBuilder.build_tree *)

Lemma size_node_of icons data name :
  size (node_of icons data name) = json_nodes data.
Proof.
  revert name. induction data as [ | b | n | s | s | s | items IH]
    using json_ind; intros name; try reflexivity.
  rewrite node_of_JObj. simpl. f_equal.
  induction IH as [ | [k v] rest Hv _ IHrest]; simpl; [done | ].
  by rewrite Hv, IHrest.
Qed.

Lemma repr_app f h ext t : forall a, repr f h a t -> repr f (h ++ ext) a t.
Proof.
  induction t as [n i ts IH | n i] using node_ind; intros a Hrepr;
    inversion Hrepr as [ ? ? ? Ha | ? ? ? cs ? Ha Hcs ]; subst.
  - econstructor; [by apply lookup_app_l_Some | ].
    clear Ha Hrepr. induction Hcs as [ | c t cs ts Hc _ IHcs]; [constructor | ].
    inversion IH as [ | ? ? Ht Hts ]; subst. constructor; auto.
  - constructor. by apply lookup_app_l_Some.
Qed.

Lemma made_with_layout f icons data :
  forall name base,
    Forall (made_with f icons) (layout f base (node_of icons data name)).
Proof.
  induction data as [ | b | n | s | s | s | items IH] using json_ind;
    intros name base; try (by repeat constructor).
  rewrite node_of_JObj, layout_container. constructor; [done | ].
  generalize (S base).
  induction IH as [ | [k v] rest Hv _ IHrest]; intros b; simpl;
    [constructor | ].
  apply Forall_app. split; [apply Hv | apply IHrest].
Qed.

(** X1: [build_tree] returns the next free address, leaves every object
    that was in the heap as it was, and creates one object for the value
    and one for every value inside it. *)
Theorem build_tree_allocates data name self h :
  let '(node, _, h') := build_tree data name self h in
  node = length h
  /\ take (length h) h' = h
  /\ length h' = length h + json_nodes data.
Proof.
  rewrite build_tree_layout. split; [done | ]. split.
  - by rewrite take_app_length.
  - by rewrite length_app, length_layout, size_node_of.
Qed.

(** X2: a builder keeps the first root it captured.  When a builder that
    has built a mapping builds a second value, its result is still the root
    of the first tree, the first tree is in the heap as it was, and the
    second tree is in the heap at the address the second call returns. *)
Theorem builder_keeps_first_root f icons items name h0 data' name' :
  let '(first, builder, h) :=
    build_tree (JObj items) name (new_TreeBuilder f icons) h0 in
  let '(second, builder', h') := build_tree data' name' builder h in
  get_result builder' = Some first
  /\ second <> first
  /\ repr f h' first (node_of icons (JObj items) name)
  /\ repr f h' second (node_of icons data' name').
Proof.
  pose proof (build_tree_repr (JObj items) name (new_TreeBuilder f icons) h0)
    as Hfirst.
  rewrite build_tree_layout in *.
  cbn [style_factory icon_family new_TreeBuilder root builder_after is_dict]
    in *.
  set (h := h0 ++ layout f (length h0) (node_of icons (JObj items) name)) in *.
  pose proof (build_tree_repr data' name' (set_root (new_TreeBuilder f icons)
                                             (length h0)) h) as Hsecond.
  rewrite build_tree_layout in *.
  cbn [style_factory icon_family new_TreeBuilder set_root root builder_after]
    in *.
  split; [done | ]. split.
  - subst h. rewrite length_app, length_layout.
    pose proof (size_node_of icons (JObj items) name) as Hsize.
    simpl json_nodes in Hsize. lia.
  - split; [by apply repr_app | exact Hsecond].
Qed.

(** X3: every object [build_tree] creates has the class of the builder's
    style, and the icon of the builder's icon family for its kind: the
    container icon for a Container, the leaf icon for a Leaf. *)
Theorem build_tree_style_and_icons data name self h :
  let '(_, _, h') := build_tree data name self h in
  Forall (made_with (style_factory self) (icon_family self))
    (drop (length h) h').
Proof.
  rewrite build_tree_layout, drop_app_length. apply made_with_layout.
Qed.

(** ** FunnyJsonExplorer.show on a top-level value that is not a mapping *)

(** X4: when the decoded document is not a mapping (a scalar, null, an
    array), [show] builds a single Leaf, finds no root in the builder and
    raises AttributeError at [root.accept]; nothing is printed, under
    either style and with whatever fuel. *)
Theorem show_scalar_raises fuel f icons data w :
  is_dict data = false ->
  show fuel (new_TreeBuilder f icons) data w
  = (Stop (Raised AttributeError),
     World (objects w
            ++ [Leaf f ("root" +:+ (if is_None data then ""
                                    else ": " +:+ str data))
                  (leaf_icon icons)])
       (stdout w)).
Proof.
  intros Hdata. unfold show.
  destruct data; try discriminate Hdata; reflexivity.
Qed.

Lemma show_scalar_raises_witness :
  show 0 (new_TreeBuilder Rectangle default_icons) (JInt 7) (World [] [])
  = (Stop (Raised AttributeError),
     World [Leaf Rectangle "root: 7" ""] []).
Proof.
  exact (show_scalar_raises 0 Rectangle default_icons (JInt 7) (World [] [])
           eq_refl).
Defined.

(** ** The iterator protocol *)

(** X5: [next] and [has_next] agree, on every iterator and whatever the
    heap holds: when [has_next] is true [next] returns a node, the one on
    top of the stack; when it is false [next] returns [None] and leaves the
    iterator as it was. *)
Theorem next_agrees_with_has_next h it :
  if has_next it
  then exists stack component it',
         it = CompositeIterator (stack ++ [component])
         /\ next h it = (Some component, it')
  else next h it = (None, it).
Proof.
  destruct it as [ | stack]; [done | ].
  destruct stack as [ | x stack _] using rev_ind; [done | ].
  rewrite has_next_snoc. unfold next. rewrite has_next_snoc, pop_snoc.
  destruct (h !! x) as [[? ? ? cs | ? ? ?] | ]; eauto.
Qed.

(** ** load_icon_families *)

Lemma new_IconFamily_inr icons fam :
  new_IconFamily icons = inr fam <->
  icons !! "container_icon" = Some (container_icon fam)
  /\ icons !! "leaf_icon" = Some (leaf_icon fam).
Proof.
  unfold new_IconFamily, getitem.
  destruct (icons !! "container_icon") as [c | ];
    destruct (icons !! "leaf_icon") as [l | ]; destruct fam as [c' l'];
    simpl; split; try (intros [= ]; subst; done);
    try (intros [[= ] [= ]]; subst; done); intros [? ?]; done.
Qed.

Lemma new_IconFamily_complete family icons :
  complete (family, icons) <-> exists fam, new_IconFamily icons = inr fam.
Proof.
  unfold complete, new_IconFamily, getitem. simpl.
  destruct (icons !! "container_icon") as [c | ];
    destruct (icons !! "leaf_icon") as [l | ]; split;
    try (intros [[? ?] [? ?]]; done); try (intros [? ?]; done); eauto.
Qed.

Lemma load_families_inr items :
  forall acc fams,
    load_families items acc = inr fams ->
    Forall complete items
    /\ (forall name, name ∉ items.*1 -> fams !! name = acc !! name)
    /\ (forall name, name ∈ items.*1 -> is_Some (fams !! name)).
Proof.
  induction items as [ | [family icons] rest IH]; intros acc fams Hload;
    simpl in *.
  { injection Hload as <-. split; [constructor | ]. split; [done | ].
    intros name Hin. by apply elem_of_nil in Hin. }
  destruct (new_IconFamily icons) as [e | fam] eqn:Hfam; [discriminate | ].
  destruct (IH _ _ Hload) as (Hall & Hout & Hin).
  split; [ | split].
  - constructor; [ | exact Hall]. apply new_IconFamily_complete. eauto.
  - intros name Hname. apply not_elem_of_cons in Hname as [Hne Hname].
    rewrite (Hout name Hname). by apply lookup_insert_ne.
  - intros name Hname. apply elem_of_cons in Hname as [-> | Hname].
    + destruct (decide (family ∈ rest.*1)) as [Hrest | Hrest]; [auto | ].
      rewrite (Hout family Hrest), lookup_insert_eq. eauto.
    + auto.
Qed.

Lemma load_families_complete items :
  Forall complete items ->
  forall acc, exists fams, load_families items acc = inr fams.
Proof.
  induction 1 as [ | [family icons] rest Hitem _ IH]; intros acc; simpl.
  { eauto. }
  apply new_IconFamily_complete in Hitem as [fam ->]. apply IH.
Qed.

Lemma load_families_lookup items :
  forall acc fams family icons,
    load_families items acc = inr fams ->
    NoDup items.*1 ->
    (family, icons) ∈ items ->
    exists fam, new_IconFamily icons = inr fam /\ fams !! family = Some fam.
Proof.
  induction items as [ | [family' icons'] rest IH];
    intros acc fams family icons Hload Hdup Hin; simpl in *.
  { by apply elem_of_nil in Hin. }
  destruct (new_IconFamily icons') as [e | fam] eqn:Hfam; [discriminate | ].
  apply NoDup_cons in Hdup as [Hfresh Hdup].
  apply elem_of_cons in Hin as [[= -> ->] | Hin].
  - destruct (load_families_inr _ _ _ Hload) as (_ & Hout & _).
    rewrite (Hout family' Hfresh), lookup_insert_eq. eauto.
  - by eapply IH.
Qed.


(** X7: the families [load_icon_families] returns are "default" and the
    families of the configuration, no other; and "default" has the two
    empty icons unless the configuration has a family of that name. *)
Theorem load_icon_families_default config fams :
  load_icon_families config = inr fams ->
  (forall name,
     is_Some (fams !! name) <-> name = "default" \/ name ∈ config.*1)
  /\ ("default" ∉ config.*1 -> fams !! "default" = Some default_icons).
Proof.
  intros Hload. destruct (load_families_inr _ _ _ Hload) as (_ & Hout & Hin).
  split.
  - intros name. split.
    + intros Hsome. destruct (decide (name ∈ config.*1)) as [ | Hname];
        [by right | left].
      rewrite (Hout name Hname) in Hsome.
      destruct (decide (name = "default")) as [ | Hne]; [done | ].
      rewrite lookup_singleton_ne in Hsome by done.
      by destruct Hsome.
    + intros [-> | Hname]; [ | by apply Hin].
      destruct (decide ("default" ∈ config.*1)) as [ | Hname]; [by apply Hin | ].
      rewrite (Hout _ Hname), lookup_singleton_eq. eauto.
  - intros Hname. by rewrite (Hout _ Hname), lookup_singleton_eq.
Qed.

Lemma load_icon_families_default_witness :
  exists fams,
    load_icon_families
      [("poker", {["container_icon" := "♢"; "leaf_icon" := "♤"]})]
    = inr fams
    /\ fams !! "default" = Some default_icons.
Proof.
  destruct (load_icon_families
              [("poker", {["container_icon" := "♢"; "leaf_icon" := "♤"]})])
    as [e | fams] eqn:Hload.
  { vm_compute in Hload. discriminate Hload. }
  exists fams. split; [reflexivity | ].
  apply (load_icon_families_default _ fams Hload).
  apply not_elem_of_cons. split; [done | apply not_elem_of_nil].
Defined.

(** X8: with the family names of the configuration distinct, as the keys
    of a decoded mapping are, every family of the configuration is returned
    with the two icons the configuration gives it; this holds for a family
    named "default" too, which replaces the built-in one. *)
Theorem load_icon_families_lookup config fams family icons :
  load_icon_families config = inr fams ->
  NoDup config.*1 ->
  (family, icons) ∈ config ->
  exists c l,
    icons !! "container_icon" = Some c
    /\ icons !! "leaf_icon" = Some l
    /\ fams !! family = Some {| container_icon := c; leaf_icon := l |}.
Proof.
  intros Hload Hdup Hin.
  destruct (load_families_lookup _ _ _ _ _ Hload Hdup Hin)
    as ([c l] & Hfam & Hlookup).
  apply new_IconFamily_inr in Hfam as [Hc Hl]. by exists c, l.
Qed.

Lemma load_icon_families_lookup_witness :
  exists fams,
    load_icon_families
      [("default", {["container_icon" := "+"; "leaf_icon" := "-"]})]
    = inr fams
    /\ fams !! "default"
       = Some {| container_icon := "+"; leaf_icon := "-" |}.
Proof.
  destruct (load_icon_families
              [("default", {["container_icon" := "+"; "leaf_icon" := "-"]})])
    as [e | fams] eqn:Hload.
  { vm_compute in Hload. discriminate Hload. }
  exists fams. split; [reflexivity | ].
  destruct (load_icon_families_lookup _ fams "default"
              {["container_icon" := "+"; "leaf_icon" := "-"]} Hload)
    as (c & l & Hc & Hl & Hfams).
  { apply NoDup_singleton. }
  { apply list_elem_of_singleton. reflexivity. }
  vm_compute in Hc. vm_compute in Hl.
  injection Hc as <-. injection Hl as <-. exact Hfams.
Defined.

(** ** main *)

Lemma style_factories_lookup name :
  style_factories !! name
  = if decide (name = "tree") then Some Tree
    else if decide (name = "rectangle") then Some Rectangle
    else None.
Proof.
  unfold style_factories.
  destruct (decide (name = "tree")) as [-> | Htree]; [done | ].
  rewrite lookup_insert_ne by done.
  destruct (decide (name = "rectangle")) as [-> | Hrect].
  - by rewrite lookup_singleton_eq.
  - by rewrite lookup_singleton_ne.
Qed.

(** X9: what [main] does with its arguments.  A configuration that does
    not load ends the run with its KeyError, whatever the arguments.  With
    a loaded configuration, a style other than "tree" and "rectangle" ends
    it with a KeyError naming the style, even when the icon family is
    unknown too; then an icon family that was not loaded ends it with a
    KeyError naming the family.  Only otherwise is the document shown, with
    the factory of the style and the icons of the family. *)
Theorem main_startup fuel args config data w :
  match main fuel args config data w with
  | inl e =>
      load_icon_families config = inl e
      \/ exists fams,
           load_icon_families config = inr fams
           /\ (args_style args <> "tree" /\ args_style args <> "rectangle"
               /\ e = KeyError (args_style args)
               \/ (args_style args = "tree" \/ args_style args = "rectangle")
                  /\ fams !! args_icon args = None
                  /\ e = KeyError (args_icon args))
  | inr r =>
      exists fams f icons,
        load_icon_families config = inr fams
        /\ (args_style args = "tree" /\ f = Tree
            \/ args_style args = "rectangle" /\ f = Rectangle)
        /\ fams !! args_icon args = Some icons
        /\ r = show fuel (new_TreeBuilder f icons) data w
  end.
Proof.
  unfold main. destruct (load_icon_families config) as [e | fams];
    [by left | ].
  unfold getitem. rewrite style_factories_lookup.
  destruct (decide (args_style args = "tree")) as [Htree | Htree].
  - destruct (fams !! args_icon args) as [icons | ] eqn:Hicon.
    + exists fams, Tree, icons. auto.
    + right. exists fams. split; [done | ]. right. auto.
  - destruct (decide (args_style args = "rectangle")) as [Hrect | Hrect].
    + destruct (fams !! args_icon args) as [icons | ] eqn:Hicon.
      * exists fams, Rectangle, icons. auto 6.
      * right. exists fams. split; [done | ]. right. auto.
    + right. exists fams. split; [done | ]. left. auto.
Qed.

(** X10: run with the file argument only, on a configuration that loads
    and has no family named "default", [main] shows the document in the
    tree style with the two empty icons. *)
Theorem main_defaults fuel file config data w fams :
  load_icon_families config = inr fams ->
  "default" ∉ config.*1 ->
  main fuel (default_args file) config data w
  = inr (show fuel (new_TreeBuilder Tree default_icons) data w).
Proof.
  intros Hload Hdefault. unfold main. rewrite Hload.
  destruct (load_families_inr _ _ _ Hload) as (_ & Hout & _).
  unfold getitem. rewrite style_factories_lookup. simpl.
  by rewrite (Hout _ Hdefault), lookup_singleton_eq.
Qed.

Lemma main_defaults_witness :
  main 3 (default_args "district.json")
    [("poker", {["container_icon" := "♢"; "leaf_icon" := "♤"]})]
    (JObj [("a", JInt 1)]) (World [] [])
  = inr (show 3 (new_TreeBuilder Tree default_icons) (JObj [("a", JInt 1)])
           (World [] [])).
Proof.
  destruct (load_icon_families
              [("poker", {["container_icon" := "♢"; "leaf_icon" := "♤"]})])
    as [e | fams] eqn:Hload.
  { vm_compute in Hload. discriminate Hload. }
  apply (main_defaults 3 "district.json" _ _ _ fams Hload).
  apply not_elem_of_cons. split; [done | apply not_elem_of_nil].
Defined.

(** ** Tree-style output *)

Lemma tree_lines_container n i ts indent is_last :
  tree_lines (NContainer n i ts) indent is_last
  = if String.eqb indent "r" then tree_children_lines "" ts
    else
      ((indent +:+ (if is_last then "└─" else "├─")) +:+ i +:+ " " +:+ n)
      :: tree_children_lines
           (indent +:+ (if is_last then "    " else "│   ")) ts.
Proof.
  assert (forall new_indent,
             (fix children (ts : list node) : list string :=
                match ts with
                | [] => []
                | t :: rest =>
                    tree_lines t new_indent (no_more rest) ++ children rest
                end) ts
             = tree_children_lines new_indent ts) as Hchildren.
  { intros new_indent. induction ts as [ | t rest IH]; simpl; [done | ].
    by rewrite IH. }
  rewrite <- !Hchildren. reflexivity.
Qed.

Lemma at_end_no_more {A} i0 (rest : list A) n :
  i0 + S (length rest) = n -> at_end i0 n = no_more rest.
Proof.
  intros <-. unfold at_end. destruct rest; simpl.
  - apply Z.eqb_eq. lia.
  - apply Z.eqb_neq. lia.
Qed.

Lemma tree_children_draws h fuel self n i cs_all new_indent ts :
  h !! self = Some (Container Tree n i cs_all) ->
  Forall (tree_draws h fuel) ts ->
  forall cs, Forall2 (repr Tree h) cs ts -> sizes ts <= fuel ->
  forall i0 out,
    i0 + length cs = length cs_all ->
    for_enumerate
      (fun i child =>
         do cs <- get_children self;
         draw fuel child new_indent (at_end i (length cs)) None)
      i0 cs (World h out)
    = (Ok tt, World h (out ++ tree_children_lines new_indent ts)).
Proof.
  intros Hself. induction 1 as [ | t rest Ht _ IH];
    intros cs Hcs Hfuel i0 out Hi0;
    inversion Hcs as [ | c ? cs' ? Hc Hcs' ]; subst.
  { simpl. by rewrite app_nil_r. }
  unfold sizes in *. simpl in Hfuel, Hi0. simpl.
  erewrite bind_Ok;
    [ | erewrite bind_Ok;
        [apply (Ht c new_indent _ Hc); lia
        | eapply get_children_Ok; exact Hself]].
  rewrite (IH cs' Hcs') by lia.
  rewrite (at_end_no_more i0 cs' (length cs_all)) by lia.
  apply Forall2_length in Hcs'.
  replace (no_more cs') with (no_more rest)
    by (destruct cs', rest; simpl in *; done).
  by rewrite app_assoc.
Qed.

Lemma tree_draws_all h t : forall fuel, tree_draws h fuel t.
Proof.
  induction t as [n i ts IH | n i] using node_ind;
    intros fuel a indent is_last Hrepr Hfuel out;
    inversion Hrepr as [ ? ? ? Ha | ? ? ? cs ? Ha Hcs ]; subst;
    destruct fuel as [ | fuel]; simpl in Hfuel; try lia.
  - assert (Forall (tree_draws h fuel) ts) as IH'.
    { eapply Forall_impl; [exact IH | ]. intros t Ht. apply Ht. }
    assert (forall new_indent out,
               (do children <- get_children a;
                for_enumerate
                  (fun i child =>
                     do cs <- get_children a;
                     draw fuel child new_indent (at_end i (length cs)) None)
                  0 children) (World h out)
               = (Ok tt, World h (out ++ tree_children_lines new_indent ts)))
      as Hloop.
    { intros new_indent out'.
      erewrite bind_Ok; [ | eapply get_children_Ok; exact Ha].
      eapply tree_children_draws; eauto. unfold sizes. lia. }
    erewrite draw_TreeContainer by exact Ha. unfold TreeContainer_draw.
    erewrite bind_Ok; [ | by apply deref_Ok].
    rewrite tree_lines_container.
    destruct (String.eqb indent "r").
    + erewrite bind_Ok; [ | reflexivity]. apply Hloop.
    + erewrite bind_Ok; [ | reflexivity]. simpl.
      rewrite Hloop. by rewrite <- app_assoc.
  - erewrite draw_TreeLeaf by exact Ha. unfold TreeLeaf_draw.
    erewrite bind_Ok; [ | by apply deref_Ok]. reflexivity.
Qed.

(** X11: what the tree style prints is read off the tree alone.  For the
    tree built under the tree style from a mapping, [draw] on the root with
    its initial arguments returns normally, leaves the heap as it was and
    appends the lines [tree_lines] gives: nothing for the root, and for
    every other node its indent, "└─" when it is the last child of its
    parent and "├─" otherwise, its icon, a space and its name, followed by
    the lines of its children under an indent longer by four spaces after a
    last child and by "│   " after another. *)
Theorem tree_draw_prints_tree_lines icons items fuel h0 out root builder h :
  build_tree (JObj items) "root" (new_TreeBuilder Tree icons) h0
  = (root, builder, h) ->
  size (node_of icons (JObj items) "root") <= fuel ->
  draw fuel root "r" true None (World h out)
  = (Ok tt,
     World h (out ++ tree_lines (node_of icons (JObj items) "root") "r" true)).
Proof.
  intros Hbuild Hfuel.
  pose proof (build_tree_repr (JObj items) "root" (new_TreeBuilder Tree icons)
                h0) as Hrepr.
  rewrite Hbuild in Hrepr.
  cbn [style_factory icon_family new_TreeBuilder] in Hrepr.
  by apply tree_draws_all.
Qed.

Lemma tree_draw_prints_tree_lines_witness :
  draw 5 0 "r" true None
    (World [Container Tree "root" "*" [1; 4]; Container Tree "a" "*" [2; 3];
            Leaf Tree "b: 1" "-"; Leaf Tree "c" "-"; Leaf Tree "d: 2" "-"] [])
  = (Ok tt,
     World [Container Tree "root" "*" [1; 4]; Container Tree "a" "*" [2; 3];
            Leaf Tree "b: 1" "-"; Leaf Tree "c" "-"; Leaf Tree "d: 2" "-"]
       ["├─* a"; "│   ├─- b: 1"; "│   └─- c"; "└─- d: 2"]).
Proof.
  exact (tree_draw_prints_tree_lines
           {| container_icon := "*"; leaf_icon := "-" |}
           [("a", JObj [("b", JInt 1); ("c", JNull)]); ("d", JInt 2)]
           5 [] [] 0
           (set_root (new_TreeBuilder Tree
                        {| container_icon := "*"; leaf_icon := "-" |}) 0)
           [Container Tree "root" "*" [1; 4]; Container Tree "a" "*" [2; 3];
            Leaf Tree "b: 1" "-"; Leaf Tree "c" "-"; Leaf Tree "d: 2" "-"]
           eq_refl ltac:(simpl; lia)).
Defined.

Lemma len_append (a b : string) : len (a +:+ b) = len a + len b.
Proof.
  induction a as [ | c a IH]; [done | ].
  change (len (String c (a +:+ b)) = len (String c a) + len b).
  simpl. rewrite IH. lia.
Qed.

Lemma tree_lines_levels t :
  forall d indent is_last,
    String.eqb indent "r" = false ->
    Forall2 (line_of (len indent) d) (tree_lines t indent is_last)
      (levels d t).
Proof.
  induction t as [n i ts IH | n i] using node_ind;
    intros d indent is_last Hindent.
  - rewrite tree_lines_container, Hindent. simpl levels. constructor.
    { eexists. split; [reflexivity | ]. rewrite len_append.
      destruct is_last; simpl; lia. }
    assert (String.eqb (indent +:+ (if is_last then "    " else "│   ")) "r"
            = false) as Hnew.
    { apply eqb_append_r. destruct is_last; simpl; lia. }
    assert (len (indent +:+ (if is_last then "    " else "│   "))
            = len indent + 4) as Hlen.
    { rewrite len_append. by destruct is_last. }
    revert Hnew Hlen.
    generalize (indent +:+ (if is_last then "    " else "│   ")).
    intros new_indent Hnew Hlen.
    induction IH as [ | t rest Ht _ IHrest]; simpl; [constructor | ].
    apply Forall2_app; [ | exact IHrest].
    eapply Forall2_impl; [apply (Ht (S d) new_indent _ Hnew) | ].
    intros line [k x] (prefix & Hline & Hprefix).
    exists prefix. split; [exact Hline | ]. simpl in *. lia.
  - simpl. constructor; [ | constructor].
    eexists. split; [reflexivity | ]. rewrite len_append.
    destruct is_last; simpl; lia.
Qed.

Lemma tree_children_lines_levels new_indent ts :
  String.eqb new_indent "r" = false ->
  Forall2 (line_of (len new_indent) 0) (tree_children_lines new_indent ts)
    (flat_map (levels 0) ts).
Proof.
  intros Hnew. induction ts as [ | t rest IH]; simpl; [constructor | ].
  apply Forall2_app; [by apply tree_lines_levels | exact IH].
Qed.

(** X12: the tree style prints one line per node below the root, in
    depth-first pre-order, and the line of a node at depth k (the children
    of the root at depth 0) is a prefix of 4 k + 2 code points followed by
    the node's icon, a space and its name. *)
Theorem tree_draw_line_layout icons items fuel h0 out root builder h :
  build_tree (JObj items) "root" (new_TreeBuilder Tree icons) h0
  = (root, builder, h) ->
  size (node_of icons (JObj items) "root") <= fuel ->
  exists lines,
    draw fuel root "r" true None (World h out)
    = (Ok tt, World h (out ++ lines))
    /\ Forall2 (line_of 0 0) lines
         (flat_map (levels 0) (nodes_of icons items)).
Proof.
  intros Hbuild Hfuel.
  pose proof (build_tree_repr (JObj items) "root" (new_TreeBuilder Tree icons)
                h0) as Hrepr.
  rewrite Hbuild in Hrepr.
  cbn [style_factory icon_family new_TreeBuilder] in Hrepr.
  eexists. split; [by apply tree_draws_all | ].
  rewrite node_of_JObj, tree_lines_container. simpl String.eqb. cbv iota.
  by apply (tree_children_lines_levels "").
Qed.

Lemma tree_draw_line_layout_witness :
  exists lines,
    draw 4 0 "r" true None
      (World [Container Tree "root" "" [1; 3]; Container Tree "a" "" [2];
              Leaf Tree "b: 1" ""; Leaf Tree "c" ""] [])
    = (Ok tt,
       World [Container Tree "root" "" [1; 3]; Container Tree "a" "" [2];
              Leaf Tree "b: 1" ""; Leaf Tree "c" ""] ([] ++ lines))
    /\ Forall2 (line_of 0 0) lines
         [(0, NContainer "a" "" [NLeaf "b: 1" ""]); (1, NLeaf "b: 1" "");
          (0, NLeaf "c" "")].
Proof.
  exact (tree_draw_line_layout default_icons
           [("a", JObj [("b", JInt 1)]); ("c", JNull)] 4 [] [] 0
           (set_root (new_TreeBuilder Tree default_icons) 0)
           [Container Tree "root" "" [1; 3]; Container Tree "a" "" [2];
            Leaf Tree "b: 1" ""; Leaf Tree "c" ""]
           eq_refl ltac:(simpl; lia)).
Defined.

(** ** Rectangle-style measuring and drawing of a tree held in the heap *)

Lemma max_length_S fuel self indent_length :
  max_length (S fuel) self indent_length
  = (do o <- deref self;
     match o with
     | Container Rectangle _ _ _ =>
         RectangleContainer_max_length (max_length fuel) self indent_length
     | Leaf Rectangle _ _ => RectangleLeaf_max_length self indent_length
     | _ => raise AttributeError
     end).
Proof. reflexivity. Qed.

Lemma map_M_measures h fuel il ts :
  Forall (measures h fuel) ts ->
  forall cs, Forall2 (repr Rectangle h) cs ts -> sizes ts <= fuel ->
  forall out,
    map_M (fun child => max_length fuel child il) cs (World h out)
    = (Ok (map (fun child => measure child il) ts), World h out).
Proof.
  induction 1 as [ | t rest Ht _ IH]; intros cs Hcs Hfuel out;
    inversion Hcs as [ | c ? cs' ? Hc Hcs' ]; subst; [done | ].
  unfold sizes in *. simpl in Hfuel. simpl.
  erewrite bind_Ok; [ | apply (Ht c il out Hc); lia].
  erewrite bind_Ok; [ | apply (IH cs' Hcs'); lia].
  reflexivity.
Qed.

Lemma measures_all h t : forall fuel, measures h fuel t.
Proof.
  induction t as [n i ts IH | n i] using node_ind;
    intros fuel a il out Hrepr Hfuel;
    inversion Hrepr as [ ? ? ? Ha | ? ? ? cs ? Ha Hcs ]; subst;
    destruct fuel as [ | fuel]; simpl in Hfuel; try lia;
    rewrite max_length_S; (erewrite bind_Ok; [ | by apply deref_Ok]).
  - unfold RectangleContainer_max_length.
    erewrite bind_Ok; [ | by apply deref_Ok].
    erewrite bind_Ok; [ | eapply get_children_Ok; exact Ha].
    erewrite bind_Ok;
      [ | apply (map_M_measures h fuel (il + 3)%Z ts); [ | exact Hcs | ]].
    + reflexivity.
    + eapply Forall_impl; [exact IH | ]. intros t Ht. apply Ht.
    + unfold sizes. lia.
  - unfold RectangleLeaf_max_length.
    erewrite bind_Ok; [ | by apply deref_Ok]. reflexivity.
Qed.

Lemma rect_lines_container n i ts indent is_last max_len :
  rect_lines (NContainer n i ts) indent is_last max_len
  = rect_container_line n i indent max_len
    :: rect_children_lines (indent +:+ "│   ") is_last max_len ts.
Proof.
  simpl. f_equal. induction ts as [ | t rest IH]; [done | ]. simpl.
  by rewrite IH.
Qed.

Lemma rect_children_draws h fuel new_indent is_last max_len total
    (body : nat -> addr -> M unit) ts :
  (forall i child out,
     body i child (World h out)
     = draw fuel child new_indent (at_end i total && is_last) (Some max_len)
         (World h out)) ->
  String.eqb new_indent "r" = false ->
  Forall (rect_draws h fuel) ts ->
  forall cs, Forall2 (repr Rectangle h) cs ts -> sizes ts <= fuel ->
  forall i0 out,
    i0 + length cs = total ->
    for_enumerate body i0 cs (World h out)
    = (Ok tt,
       World h (out ++ rect_children_lines new_indent is_last max_len ts)).
Proof.
  intros Hbody Hnew. induction 1 as [ | t rest Ht _ IH];
    intros cs Hcs Hfuel i0 out Hi0;
    inversion Hcs as [ | c ? cs' ? Hc Hcs' Hcs_eq ]; subst cs.
  { simpl. by rewrite app_nil_r. }
  unfold sizes in *. simpl in Hfuel, Hi0. simpl.
  erewrite bind_Ok;
    [ | rewrite Hbody; apply (Ht c new_indent _ max_len Hc); [lia | done]].
  rewrite (IH cs' Hcs') by lia.
  rewrite (at_end_no_more i0 cs' total) by lia.
  apply Forall2_length in Hcs'.
  replace (no_more cs') with (no_more rest)
    by (destruct cs', rest; simpl in *; done).
  by rewrite app_assoc.
Qed.

Lemma rect_draws_all h t : forall fuel, rect_draws h fuel t.
Proof.
  induction t as [n i ts IH | n i] using node_ind;
    intros fuel a indent is_last max_len Hrepr Hfuel Hindent out;
    inversion Hrepr as [ ? ? ? Ha | ? ? ? cs ? Ha Hcs ]; subst;
    destruct fuel as [ | fuel]; simpl in Hfuel; try lia.
  - erewrite draw_RectangleContainer by exact Ha.
    unfold RectangleContainer_draw. rewrite Hindent.
    erewrite bind_Ok;
      [ | erewrite bind_Ok; [ | by apply deref_Ok];
          erewrite bind_Ok; reflexivity].
    cbv beta iota. simpl stdout.
    erewrite bind_Ok; [ | eapply get_children_Ok; exact Ha].
    rewrite rect_lines_container.
    erewrite (rect_children_draws h fuel (indent +:+ "│   ") is_last max_len
                (length cs) _ ts); [ | | | | exact Hcs | | ].
    + by rewrite <- app_assoc.
    + intros j child out'.
      erewrite bind_Ok; [reflexivity | eapply get_children_Ok; exact Ha].
    + apply eqb_append_r. simpl. lia.
    + eapply Forall_impl; [exact IH | ]. intros t Ht. apply Ht.
    + unfold sizes. lia.
    + done.
  - erewrite draw_RectangleLeaf by exact Ha. unfold RectangleLeaf_draw.
    erewrite bind_Ok; [ | by apply deref_Ok]. reflexivity.
Qed.

Lemma fold_left_max_ge (l : list Z) (x : Z) :
  (x <= fold_left Z.max l x)%Z
  /\ Forall (fun y => (y <= fold_left Z.max l x)%Z) l.
Proof.
  revert x. induction l as [ | y l IH]; intros x; simpl.
  { split; [lia | constructor]. }
  destruct (IH (Z.max x y)) as [Hx Hl]. split; [lia | ].
  constructor; [lia | exact Hl].
Qed.

Lemma fold_left_max_in (l : list Z) (x : Z) :
  fold_left Z.max l x = x \/ fold_left Z.max l x ∈ l.
Proof.
  revert x. induction l as [ | y l IH]; intros x; simpl; [by left | ].
  destruct (IH (Z.max x y)) as [Heq | Hin].
  - rewrite Heq. destruct (Z.max_spec x y) as [[_ ->] | [_ ->]].
    + right. apply elem_of_cons. by left.
    + by left.
  - right. apply elem_of_cons. by right.
Qed.

Lemma max_default_ge (l : list Z) (d : Z) :
  Forall (fun y => (y <= max_default l d)%Z) l.
Proof.
  destruct l as [ | x l]; simpl; [constructor | ].
  destruct (fold_left_max_ge l x) as [Hx Hl]. by constructor.
Qed.

Lemma max_default_in (l : list Z) (d : Z) :
  l <> [] -> max_default l d ∈ l.
Proof.
  destruct l as [ | x l]; [done | ]. intros _. simpl.
  destruct (fold_left_max_in l x) as [-> | Hin]; apply elem_of_cons; auto.
Qed.

Lemma measure_upper t :
  forall d il,
    Forall
      (fun kx => (il - 3 * Z.of_nat d + reach kx <= measure t il)%Z)
      (levels d t).
Proof.
  induction t as [n i ts IH | n i] using node_ind; intros d il.
  - simpl levels. constructor.
    { unfold reach. simpl. lia. }
    simpl measure.
    pose proof (max_default_ge
                  (map (fun child => measure child (il + 3)%Z) ts) 0%Z)
      as Hmax.
    revert Hmax.
    generalize (max_default
                  (map (fun child => measure child (il + 3)%Z) ts) 0%Z).
    intros m Hmax.
    induction IH as [ | t rest Ht _ IHrest]; simpl; [constructor | ].
    simpl in Hmax. inversion Hmax as [ | ? ? Hm Hmax' ]; subst.
    apply Forall_app. split; [ | by apply IHrest].
    eapply Forall_impl; [apply (Ht (S d) (il + 3)%Z) | ].
    intros kx Hkx. simpl in Hkx. lia.
  - simpl. constructor; [ | constructor]. unfold reach. simpl. lia.
Qed.

Lemma measure_attained t :
  forall d il,
    (0 <= il)%Z ->
    Exists
      (fun kx => (measure t il = il - 3 * Z.of_nat d + reach kx)%Z)
      (levels d t).
Proof.
  induction t as [n i ts IH | n i] using node_ind; intros d il Hil.
  - simpl levels. simpl measure.
    destruct (Z.max_spec
                (il + Z.of_nat (len (label i n)))
                (max_default
                   (map (fun child => measure child (il + 3)%Z) ts) 0%Z))
      as [[Hlt ->] | [_ ->]].
    2: { apply Exists_cons_hd. unfold reach. simpl. lia. }
    apply Exists_cons_tl.
    destruct ts as [ | t0 ts0]; [simpl in Hlt; lia | ].
    pose proof (max_default_in
                  (map (fun child => measure child (il + 3)%Z) (t0 :: ts0))
                  0%Z ltac:(done)) as Hin.
    revert Hin.
    generalize (max_default
                  (map (fun child => measure child (il + 3)%Z) (t0 :: ts0))
                  0%Z).
    intros m Hin. clear Hlt.
    induction IH as [ | t rest Ht _ IHrest];
      [by apply elem_of_nil in Hin | ].
    simpl in Hin. apply elem_of_cons in Hin as [-> | Hin]; simpl;
      apply Exists_app.
    + left. eapply Exists_impl; [apply (Ht (S d) (il + 3)%Z); lia | ].
      intros kx Hkx. simpl in Hkx. lia.
    + right. by apply IHrest.
  - simpl. apply Exists_cons_hd. unfold reach. simpl. lia.
Qed.

(** X13: the measure pass on a tree built under the rectangle style from a
    mapping.  [max_length] on the root returns normally, prints nothing and
    leaves the heap as it was; the width it returns is the largest column
    reached by a label, over every node of the tree, the root at depth 0
    with its own label included: no node reaches further, and some node
    reaches it. *)
Theorem max_length_is_widest_reach icons items fuel h0 out root builder h :
  build_tree (JObj items) "root" (new_TreeBuilder Rectangle icons) h0
  = (root, builder, h) ->
  size (node_of icons (JObj items) "root") <= fuel ->
  exists width,
    max_length fuel root 0 (World h out) = (Ok width, World h out)
    /\ Forall (fun kx => (reach kx <= width)%Z)
         (levels 0 (node_of icons (JObj items) "root"))
    /\ Exists (fun kx => width = reach kx)
         (levels 0 (node_of icons (JObj items) "root")).
Proof.
  intros Hbuild Hfuel.
  pose proof (build_tree_repr (JObj items) "root"
                (new_TreeBuilder Rectangle icons) h0) as Hrepr.
  rewrite Hbuild in Hrepr.
  cbn [style_factory icon_family new_TreeBuilder] in Hrepr.
  exists (measure (node_of icons (JObj items) "root") 0).
  split; [by apply measures_all | ]. split.
  - eapply Forall_impl; [apply (measure_upper _ 0 0%Z) | ].
    intros kx Hkx. cbv beta in Hkx. lia.
  - eapply Exists_impl; [apply (measure_attained _ 0 0%Z); lia | ].
    intros kx Hkx. cbv beta in Hkx. lia.
Qed.

Lemma max_length_is_widest_reach_witness :
  exists width,
    max_length 3 0 0
      (World [Container Rectangle "root" "" [1; 2];
              Container Rectangle "a" "" []; Leaf Rectangle "b: 1" ""] [])
    = (Ok width,
       World [Container Rectangle "root" "" [1; 2];
              Container Rectangle "a" "" []; Leaf Rectangle "b: 1" ""] [])
    /\ Forall (fun kx => (reach kx <= width)%Z)
         (levels 0 (node_of default_icons two_rows "root"))
    /\ Exists (fun kx => width = reach kx)
         (levels 0 (node_of default_icons two_rows "root")).
Proof.
  exact (max_length_is_widest_reach default_icons
           [("a", JObj []); ("b", JInt 1)] 3 [] [] 0
           (set_root (new_TreeBuilder Rectangle default_icons) 0)
           [Container Rectangle "root" "" [1; 2];
            Container Rectangle "a" "" []; Leaf Rectangle "b: 1" ""]
           eq_refl ltac:(simpl; lia)).
Defined.

Lemma index_first {A} (x : A) (l : list A) w :
  index (x :: l) 0 w = (Ok x, w).
Proof. reflexivity. Qed.

(** The root draw of the rectangle style when the first child of the root
    is a Container. *)
Lemma rect_root_draws h r n i c0 cs n0 i0 gs ts0 rest fuel is_last ml out :
  h !! r = Some (Container Rectangle n i (c0 :: cs)) ->
  h !! c0 = Some (Container Rectangle n0 i0 gs) ->
  Forall2 (repr Rectangle h) gs ts0 ->
  repr Rectangle h r (NContainer n i (NContainer n0 i0 ts0 :: rest)) ->
  Forall2 (repr Rectangle (<[r := Container Rectangle n i cs]> h)) cs rest ->
  size (NContainer n i (NContainer n0 i0 ts0 :: rest)) <= fuel ->
  draw (S fuel) r "r" is_last ml (World h out)
  = (Ok tt,
     World (<[r := Container Rectangle n i cs]> h)
       (out ++ rect_root_lines n i n0 i0 ts0 rest)).
Proof.
  intros Hr Hc0 Hgs Hrepr Hcs Hfuel.
  assert (r < length h) as Hlt by (by eapply lookup_lt_Some).
  assert (sizes ts0 <= fuel /\ sizes rest <= fuel) as [Hfuel0 Hfuel1].
  { unfold sizes. simpl in Hfuel. lia. }
  assert (no_more cs = no_more rest) as Hmore.
  { apply Forall2_length in Hcs. by destruct cs, rest. }
  erewrite draw_RectangleContainer by exact Hr.
  unfold RectangleContainer_draw. simpl String.eqb. cbv iota.
  set (max_len := measure (NContainer n i (NContainer n0 i0 ts0 :: rest)) 0).
  erewrite bind_Ok.
  2: { erewrite bind_Ok; [ | eapply get_children_Ok; exact Hr].
       erewrite bind_Ok; [ | by apply measures_all].
       erewrite bind_Ok; [ | eapply get_children_Ok; exact Hr].
       erewrite bind_Ok; [ | apply index_first].
       erewrite bind_Ok; [ | by apply deref_Ok].
       erewrite bind_Ok; [ | reflexivity].
       erewrite bind_Ok; [ | eapply get_children_Ok; exact Hc0].
       erewrite bind_Ok.
       2: { apply (rect_children_draws h fuel "│   "
                     (length (c0 :: cs) =? 1)%nat max_len (length gs) _ ts0);
              [ | done | | exact Hgs | exact Hfuel0 | done].
            - intros j child out'.
              erewrite bind_Ok; [ | eapply get_children_Ok; exact Hr].
              erewrite bind_Ok; [ | apply index_first].
              erewrite bind_Ok; [ | eapply get_children_Ok; exact Hc0].
              reflexivity.
            - apply Forall_forall. intros t _. apply rect_draws_all. }
       erewrite bind_Ok.
       2: { unfold pop_first_child.
            erewrite bind_Ok; [ | by apply deref_Ok]. reflexivity. }
       reflexivity. }
  cbv beta iota. cbn [objects stdout].
  erewrite bind_Ok;
    [ | eapply get_children_Ok; cbn [objects];
        by apply list_lookup_insert_eq].
  erewrite (rect_children_draws _ fuel "│   " true max_len (length cs) _ rest);
    [ | | done | | exact Hcs | exact Hfuel1 | done].
  - unfold rect_root_lines. fold max_len.
    replace (length (c0 :: cs) =? 1)%nat with (no_more rest)
      by (rewrite <- Hmore; by destruct cs).
    by rewrite <- !app_assoc.
  - intros j child out'.
    erewrite bind_Ok; [reflexivity | ].
    eapply get_children_Ok. cbn [objects]. by apply list_lookup_insert_eq.
  - apply Forall_forall. intros t _. apply rect_draws_all.
Qed.

(** The root draw of the rectangle style on a root without children. *)
Lemma rect_root_draw_empty h r n i fuel is_last ml out :
  h !! r = Some (Container Rectangle n i []) ->
  draw (S (S fuel)) r "r" is_last ml (World h out)
  = (Stop (Raised IndexError), World h out).
Proof.
  intros Hr.
  assert (repr Rectangle h r (NContainer n i [])) as Hrepr.
  { econstructor; [exact Hr | constructor]. }
  erewrite draw_RectangleContainer by exact Hr.
  unfold RectangleContainer_draw. simpl String.eqb. cbv iota.
  erewrite bind_Stop; [reflexivity | ].
  erewrite bind_Ok; [ | eapply get_children_Ok; exact Hr].
  erewrite bind_Ok;
    [ | apply (measures_all h (NContainer n i []) (S fuel));
        [exact Hrepr | simpl; lia]].
  erewrite bind_Ok; [ | eapply get_children_Ok; exact Hr].
  reflexivity.
Qed.

(** The root draw of the rectangle style when the first child of the root
    is a Leaf. *)
Lemma rect_root_draw_leaf_first h r n i c0 cs n0 i0 ts fuel is_last ml out :
  h !! r = Some (Container Rectangle n i (c0 :: cs)) ->
  h !! c0 = Some (Leaf Rectangle n0 i0) ->
  repr Rectangle h r (NContainer n i ts) ->
  size (NContainer n i ts) <= fuel ->
  draw (S fuel) r "r" is_last ml (World h out)
  = (Stop (Raised AttributeError),
     World h (out ++ [rect_opener_line n0 i0 (measure (NContainer n i ts) 0)])).
Proof.
  intros Hr Hc0 Hrepr Hfuel.
  erewrite draw_RectangleContainer by exact Hr.
  unfold RectangleContainer_draw. simpl String.eqb. cbv iota.
  erewrite bind_Stop; [reflexivity | ].
  erewrite bind_Ok; [ | eapply get_children_Ok; exact Hr].
  erewrite bind_Ok; [ | by apply measures_all].
  erewrite bind_Ok; [ | eapply get_children_Ok; exact Hr].
  erewrite bind_Ok; [ | apply index_first].
  erewrite bind_Ok; [ | by apply deref_Ok].
  erewrite bind_Ok; [ | reflexivity].
  erewrite bind_Stop; [reflexivity | ].
  unfold get_children. erewrite bind_Ok; [ | by apply deref_Ok]. reflexivity.
Qed.

Lemma length_rect_lines t :
  forall indent is_last max_len,
    length (rect_lines t indent is_last max_len) = size t.
Proof.
  induction t as [n i ts IH | n i] using node_ind;
    intros indent is_last max_len; [ | done].
  rewrite rect_lines_container. simpl. f_equal.
  generalize (indent +:+ "│   "). intros new_indent.
  induction IH as [ | t rest Ht _ IHrest]; simpl; [done | ].
  by rewrite length_app, Ht, IHrest.
Qed.

Lemma length_rect_children_lines new_indent is_last max_len ts :
  length (rect_children_lines new_indent is_last max_len ts) = sizes ts.
Proof.
  induction ts as [ | t rest IH]; simpl; [done | ].
  rewrite length_app, length_rect_lines, IH. done.
Qed.

(** The heap after [build_tree] on a mapping with at least one item, from
    a builder without a root. *)
Lemma build_tree_first_item f icons key value items h0 :
  build_tree (JObj ((key, value) :: items)) "root" (new_TreeBuilder f icons)
    h0
  = (length h0, set_root (new_TreeBuilder f icons) (length h0),
     h0
     ++ Container f "root" (container_icon icons)
          (S (length h0)
           :: child_addrs (S (length h0) + size (node_of icons value key))
                (nodes_of icons items))
        :: layout f (S (length h0)) (node_of icons value key)
        ++ layouts f (S (length h0) + size (node_of icons value key))
             (nodes_of icons items)).
Proof.
  rewrite build_tree_layout, node_of_JObj, layout_container. reflexivity.
Qed.

Lemma insert_middle {A} (l1 l2 : list A) (x y : A) :
  <[length l1 := y]> (l1 ++ x :: l2) = l1 ++ y :: l2.
Proof.
  replace (length l1) with (length l1 + 0) at 1 by lia.
  by rewrite insert_app_r.
Qed.

(** After the first child of the built root is popped, the other children
    are still in the heap. *)
Lemma repr_others_after_pop f h0 root' t0 ts :
  Forall2
    (repr f (h0 ++ root' :: layout f (S (length h0)) t0
                ++ layouts f (S (length h0) + size t0) ts))
    (child_addrs (S (length h0) + size t0) ts) ts.
Proof.
  pose proof (repr_layouts f ts
                ltac:(apply Forall_forall; intros; apply repr_layout)
                (h0 ++ root' :: layout f (S (length h0)) t0) []) as H.
  rewrite length_app in H. simpl in H. rewrite length_layout in H.
  rewrite app_nil_r, <- app_assoc in H.
  replace (length h0 + S (size t0)) with (S (length h0) + size t0) in H by lia.
  exact H.
Qed.

Lemma node_of_first_item icons key value items name :
  node_of icons (JObj ((key, value) :: items)) name
  = NContainer name (container_icon icons)
      (node_of icons value key :: nodes_of icons items).
Proof. by rewrite node_of_JObj. Qed.

(** X14: the rectangle style on a mapping whose first value is a mapping.
    On the tree built from it, [draw] on the root returns normally; it
    prints the lines [rect_root_lines] gives, one for each node below the
    root: the opener for the first child, the rows below the first child,
    then the rows of the other children; and it leaves the heap as it was
    but for the root, whose first child is removed. *)
Theorem rectangle_draw_succeeds icons key items0 items fuel h0 out root
    builder h :
  build_tree (JObj ((key, JObj items0) :: items)) "root"
    (new_TreeBuilder Rectangle icons) h0
  = (root, builder, h) ->
  json_nodes (JObj ((key, JObj items0) :: items)) <= fuel ->
  exists first others lines,
    h !! root
    = Some (Container Rectangle "root" (container_icon icons)
              (first :: others))
    /\ draw (S fuel) root "r" true None (World h out)
       = (Ok tt,
          World (<[root := Container Rectangle "root" (container_icon icons)
                             others]> h)
            (out ++ lines))
    /\ lines
       = rect_root_lines "root" (container_icon icons) key
           (container_icon icons) (nodes_of icons items0)
           (nodes_of icons items)
    /\ S (length lines) = json_nodes (JObj ((key, JObj items0) :: items)).
Proof.
  intros Hbuild Hfuel.
  rewrite <- (size_node_of icons _ "root") in *.
  pose proof (build_tree_repr (JObj ((key, JObj items0) :: items)) "root"
                (new_TreeBuilder Rectangle icons) h0) as Hrepr.
  rewrite build_tree_first_item in Hbuild, Hrepr.
  cbn [style_factory icon_family new_TreeBuilder] in Hrepr.
  apply pair_equal_spec in Hbuild as [Hbuild <-].
  apply pair_equal_spec in Hbuild as [<- _].
  rewrite node_of_first_item in Hrepr, Hfuel.
  rewrite (node_of_JObj icons items0 key) in Hrepr, Hfuel |- *.
  set (t0 := NContainer key (container_icon icons) (nodes_of icons items0))
    in *.
  set (others := child_addrs (S (length h0) + size t0) (nodes_of icons items)).
  inversion Hrepr as [ | ? ? ? cs ts Hroot Hcs ]; subst.
  rewrite list_lookup_middle in Hroot by done.
  injection Hroot as <-.
  inversion Hcs as [ | c0 ? cs' ? Hc0 _ ]; subst.
  inversion Hc0 as [ | ? ? ? gs ? Hfirst Hgs ]; subst.
  exists (S (length h0)), others. eexists.
  split; [by apply list_lookup_middle | ].
  split; [ | split; [reflexivity | ]].
  - eapply rect_root_draws; eauto.
    + by apply list_lookup_middle.
    + rewrite insert_middle. apply repr_others_after_pop.
  - rewrite node_of_first_item, (node_of_JObj icons items0 key).
    unfold rect_root_lines. simpl length.
    rewrite length_app, !length_rect_children_lines.
    unfold sizes. simpl. lia.
Qed.

Lemma rectangle_draw_succeeds_witness :
  exists first others lines,
    rect_heap_ab !! 0 = Some (Container Rectangle "root" "" (first :: others))
    /\ draw 4 0 "r" true None (World rect_heap_ab [])
       = (Ok tt,
          World (<[0 := Container Rectangle "root" "" others]> rect_heap_ab)
            ([] ++ lines))
    /\ lines
       = rect_root_lines "root" "" "a" "" (nodes_of default_icons [("b", JInt 1)])
           (nodes_of default_icons [])
    /\ S (length lines) = json_nodes (JObj [("a", JObj [("b", JInt 1)])]).
Proof.
  exact (rectangle_draw_succeeds default_icons "a" [("b", JInt 1)] [] 3 [] []
           0 (set_root (new_TreeBuilder Rectangle default_icons) 0)
           rect_heap_ab eq_refl ltac:(simpl; lia)).
Defined.

(** X15: the rectangle style on the empty mapping.  [show] builds the root
    alone and the root draw raises IndexError at [self.children[0]]:
    nothing is printed and the root is left as it was, whatever the icons
    and the fuel beyond two. *)
Theorem rectangle_show_empty_raises icons fuel w :
  show (S (S fuel)) (new_TreeBuilder Rectangle icons) (JObj []) w
  = (Stop (Raised IndexError),
     World (objects w ++ [Container Rectangle "root" (container_icon icons) []])
       (stdout w)).
Proof.
  rewrite show_built. cbn [root new_TreeBuilder default style_factory
                             icon_family].
  rewrite node_of_JObj, layout_container. simpl layouts. simpl nodes_of.
  simpl child_addrs.
  eapply accept_container.
  - by apply list_lookup_middle.
  - eapply rect_root_draw_empty. by apply list_lookup_middle.
  - by right.
Qed.

(** X16: the rectangle style on a mapping whose first value is not a
    mapping.  [show] builds the tree, the root draw prints the opener for
    the first child, sized by the measure of the whole tree, and raises
    AttributeError at [self.children[0].children]; no other line is printed
    and no node is changed. *)
Theorem rectangle_show_leaf_first_raises icons key value items fuel w :
  is_dict value = false ->
  json_nodes (JObj ((key, value) :: items)) <= fuel ->
  let t := node_of icons (JObj ((key, value) :: items)) "root" in
  show (S fuel) (new_TreeBuilder Rectangle icons)
    (JObj ((key, value) :: items)) w
  = (Stop (Raised AttributeError),
     World (objects w ++ layout Rectangle (length (objects w)) t)
       (stdout w
        ++ [rect_opener_line
              (key +:+ (if is_None value then "" else ": " +:+ str value))
              (leaf_icon icons) (measure t 0)])).
Proof.
  intros Hvalue Hfuel t. rewrite show_built.
  cbn [root new_TreeBuilder default style_factory icon_family]. fold t.
  rewrite <- (size_node_of icons _ "root") in Hfuel. fold t in Hfuel.
  pose proof (repr_layout Rectangle t (objects w) []) as Hrepr.
  rewrite app_nil_r in Hrepr.
  assert (exists cs,
             (objects w ++ layout Rectangle (length (objects w)) t)
               !! length (objects w)
             = Some (Container Rectangle "root" (container_icon icons)
                       (S (length (objects w)) :: cs))
             /\ (objects w ++ layout Rectangle (length (objects w)) t)
                  !! S (length (objects w))
                = Some (Leaf Rectangle
                          (key +:+ (if is_None value then ""
                                    else ": " +:+ str value))
                          (leaf_icon icons))) as (cs & Hroot & Hfirst).
  { unfold t in *. rewrite node_of_first_item in *.
    set (t0 := node_of icons value key) in *.
    inversion Hrepr as [ | ? ? ? cs ts Hroot Hcs ]; subst.
    rewrite layout_container in Hroot |- *.
    rewrite list_lookup_middle in Hroot by done. injection Hroot as <-.
    simpl child_addrs. eexists. split; [by apply list_lookup_middle | ].
    simpl child_addrs in Hcs.
    inversion Hcs as [ | ? ? ? ? Hc0 _ ]; subst.
    rewrite layout_container in Hc0.
    unfold t0 in Hc0. destruct value; try discriminate Hvalue;
      inversion Hc0; subst; assumption. }
  eapply accept_container; [exact Hroot | | by right].
  unfold t in *. rewrite node_of_first_item in *.
  eapply rect_root_draw_leaf_first; eauto.
Qed.

Lemma rectangle_show_leaf_first_raises_witness :
  show 4 (new_TreeBuilder Rectangle default_icons) scenario_c (World [] [])
  = (Stop (Raised AttributeError),
     World ([] ++ layout Rectangle 0 (node_of default_icons scenario_c "root"))
       ([] ++ [rect_opener_line "x: 1" ""
                 (measure (node_of default_icons scenario_c "root") 0)])).
Proof.
  exact (rectangle_show_leaf_first_raises default_icons "x" (JInt 1)
           [("y", JInt 2)] 3 (World [] []) eq_refl ltac:(simpl; lia)).
Defined.

(** X17: a rectangle render cannot be repeated on a root with one child.
    On the tree built from a mapping with a single item whose value is a
    mapping, the first [draw] on the root returns normally; a second one,
    with the same arguments, finds the root without children and raises
    IndexError without printing anything. *)
Theorem rectangle_second_draw_raises icons key items0 fuel h0 out root
    builder h :
  build_tree (JObj [(key, JObj items0)]) "root"
    (new_TreeBuilder Rectangle icons) h0
  = (root, builder, h) ->
  json_nodes (JObj [(key, JObj items0)]) <= fuel ->
  exists w1,
    draw (S fuel) root "r" true None (World h out) = (Ok tt, w1)
    /\ draw (S fuel) root "r" true None w1 = (Stop (Raised IndexError), w1).
Proof.
  intros Hbuild Hfuel.
  assert (exists fuel', fuel = S fuel') as [fuel' ->].
  { simpl in Hfuel. destruct fuel; [lia | eauto]. }
  rewrite <- (size_node_of icons _ "root") in *.
  pose proof (build_tree_repr (JObj [(key, JObj items0)]) "root"
                (new_TreeBuilder Rectangle icons) h0) as Hrepr.
  rewrite build_tree_first_item in Hbuild, Hrepr.
  cbn [style_factory icon_family new_TreeBuilder] in Hrepr.
  apply pair_equal_spec in Hbuild as [Hbuild <-].
  apply pair_equal_spec in Hbuild as [<- _].
  rewrite node_of_first_item in Hrepr, Hfuel.
  rewrite (node_of_JObj icons items0 key) in Hrepr, Hfuel |- *.
  set (t0 := NContainer key (container_icon icons) (nodes_of icons items0))
    in *.
  simpl nodes_of in *. simpl child_addrs in *.
  inversion Hrepr as [ | ? ? ? cs ts Hroot Hcs ]; subst.
  rewrite list_lookup_middle in Hroot by done. injection Hroot as <-.
  inversion Hcs as [ | c0 ? cs' ? Hc0 _ ]; subst.
  inversion Hc0 as [ | ? ? ? gs ? Hfirst Hgs ]; subst.
  eexists. split.
  - apply (rect_root_draws _ _ "root" (container_icon icons) (S (length h0))
             [] key (container_icon icons) gs (nodes_of icons items0) []
             (S fuel') true None out);
      [by apply list_lookup_middle | exact Hfirst | exact Hgs | exact Hrepr
      | constructor | exact Hfuel].
  - rewrite insert_middle. eapply rect_root_draw_empty.
    by apply list_lookup_middle.
Qed.

Lemma rectangle_second_draw_raises_witness :
  exists w1,
    draw 4 0 "r" true None (World rect_heap_ab []) = (Ok tt, w1)
    /\ draw 4 0 "r" true None w1 = (Stop (Raised IndexError), w1).
Proof.
  exact (rectangle_second_draw_raises default_icons "a" [("b", JInt 1)] 3 [] []
           0 (set_root (new_TreeBuilder Rectangle default_icons) 0)
           rect_heap_ab eq_refl ltac:(simpl; lia)).
Defined.

(** ** Widths of rectangle rows *)

Lemma replace_from_skip old new count k s :
  replace_from old new count k s
  = replace_from old new count 0 (skip_bytes k s).
Proof.
  revert k. induction s as [ | c r IH]; intros [ | k]; try reflexivity.
  simpl skip_bytes. rewrite <- IH. reflexivity.
Qed.

Lemma prefix_skip old s :
  String.prefix old s = true -> s = old +:+ skip_bytes (String.length old) s.
Proof.
  revert s. induction old as [ | a old IH]; intros s Hprefix; [done | ].
  destruct s as [ | b s]; [discriminate | ]. simpl in Hprefix.
  destruct (ascii_dec a b) as [-> | ]; [ | discriminate].
  simpl skip_bytes.
  change (String b s = String b (old +:+ skip_bytes (String.length old) s)).
  f_equal. by apply IH.
Qed.

Lemma length_skip_bytes k s : String.length (skip_bytes k s) <= String.length s.
Proof.
  revert k. induction s as [ | c r IH]; intros [ | k]; simpl; try lia.
  specialize (IH k). lia.
Qed.

Lemma replace_from_cons old new count c r :
  replace_from old new count 0 (String c r)
  = match count with
    | Some O => String c r
    | _ =>
        if String.prefix old (String c r)
        then new +:+ replace_from old new (pred <$> count)
                       (String.length old - 1) r
        else String c (replace_from old new count 0 r)
    end.
Proof. reflexivity. Qed.

Lemma len_replace_from old new :
  len new = len old -> old <> "" ->
  forall n s count,
    String.length s <= n ->
    len (replace_from old new count 0 s) = len s.
Proof.
  intros Hlen Hold. induction n as [ | n IH]; intros s count Hn.
  { destruct s; [done | simpl in Hn; lia]. }
  destruct s as [ | c r]; [done | ]. simpl in Hn.
  assert (forall count',
             len (String c (replace_from old new count' 0 r))
             = len (String c r)) as Hkeep.
  { intros count'. simpl. rewrite IH by lia. done. }
  assert (String.prefix old (String c r) = true ->
          forall count',
            len (new +:+ replace_from old new count'
                           (String.length old - 1) r)
            = len (String c r)) as Hmatch.
  { intros Hprefix count'. rewrite replace_from_skip, len_append.
    rewrite IH by (pose proof (length_skip_bytes (String.length old - 1) r);
                   lia).
    pose proof (prefix_skip _ _ Hprefix) as Hs.
    transitivity
      (len (old +:+ skip_bytes (String.length old) (String c r)));
      [ | by rewrite <- Hs].
    rewrite len_append, Hlen.
    destruct old as [ | a old]; [done | ]. simpl.
    by rewrite Nat.sub_0_r. }
  rewrite replace_from_cons.
  destruct count as [[ | k] | ]; [done | | ];
    (destruct (String.prefix old (String c r)) eqn:Hprefix;
     [by apply Hmatch | apply Hkeep]).
Qed.

Lemma len_replace s old new count :
  len new = len old -> old <> "" -> len (replace s old new count) = len s.
Proof.
  intros Hlen Hold. unfold replace.
  by apply (len_replace_from old new Hlen Hold (String.length s)).
Qed.

Lemma len_str_mul n : len (str_mul "─" n) = Z.to_nat n.
Proof.
  unfold str_mul. induction (Z.to_nat n) as [ | k IH]; [done | ].
  simpl str_repeat. rewrite len_append, IH. done.
Qed.

Lemma len_rect_leaf_line n i indent is_last max_len :
  len (rect_leaf_line n i indent is_last max_len)
  = row_width max_len (len indent) (len (label i n)).
Proof.
  unfold rect_leaf_line, row_width, label.
  rewrite !len_append, len_str_mul.
  replace (len (if is_last then "─┘" else "─┤")) with 2
    by (by destruct is_last).
  assert (len (replace (replace indent "│   " "└───" (Some 1)) "│   " "┴───"
                 None)
          = len indent) as Hindent.
  { by rewrite !len_replace. }
  destruct is_last.
  - destruct (len (replace (replace indent "│   " "└───" (Some 1)) "│   "
                     "┴───" None) =? 0)%nat;
      rewrite len_append, Hindent; simpl; lia.
  - rewrite len_append. simpl. lia.
Qed.

Lemma len_rect_container_line n i indent max_len :
  len (rect_container_line n i indent max_len)
  = row_width max_len (len indent) (len (label i n)).
Proof.
  unfold rect_container_line, row_width, label.
  rewrite !len_append, len_str_mul. simpl. lia.
Qed.

Lemma len_rect_opener_line n i max_len :
  len (rect_opener_line n i max_len)
  = row_width max_len 0 (len (label i n)).
Proof.
  unfold rect_opener_line, row_width, label.
  rewrite !len_append, len_str_mul. simpl. lia.
Qed.

Lemma rect_lines_rows max_len t :
  forall d indent is_last,
    Forall2 (row_of max_len (len indent) d)
      (rect_lines t indent is_last max_len) (levels d t).
Proof.
  induction t as [n i ts IH | n i] using node_ind; intros d indent is_last.
  - rewrite rect_lines_container. simpl levels. constructor.
    { exists (len indent). split; [done | apply len_rect_container_line]. }
    assert (len (indent +:+ "│   ") = len indent + 4) as Hlen.
    { by rewrite len_append. }
    revert Hlen. generalize (indent +:+ "│   "). intros new_indent Hlen.
    induction IH as [ | t rest Ht _ IHrest]; simpl; [constructor | ].
    apply Forall2_app; [ | exact IHrest].
    eapply Forall2_impl; [apply (Ht (S d) new_indent) | ].
    intros line [k x] (w & Hw & Hline).
    exists w. split; [simpl in *; lia | exact Hline].
  - simpl. constructor; [ | constructor].
    exists (len indent). split; [done | apply len_rect_leaf_line].
Qed.

Lemma rect_children_lines_rows max_len new_indent is_last ts d :
  Forall2 (row_of max_len (len new_indent) d)
    (rect_children_lines new_indent is_last max_len ts)
    (flat_map (levels d) ts).
Proof.
  induction ts as [ | t rest IH]; simpl; [constructor | ].
  apply Forall2_app; [apply rect_lines_rows | exact IH].
Qed.

(** The root draw of the rectangle style on the tree built from a mapping
    whose first value is a mapping. *)
Lemma built_rect_draw icons key items0 items fuel h0 out root builder h :
  build_tree (JObj ((key, JObj items0) :: items)) "root"
    (new_TreeBuilder Rectangle icons) h0
  = (root, builder, h) ->
  json_nodes (JObj ((key, JObj items0) :: items)) <= fuel ->
  exists h',
    draw (S fuel) root "r" true None (World h out)
    = (Ok tt,
       World h'
         (out ++ rect_root_lines "root" (container_icon icons) key
                   (container_icon icons) (nodes_of icons items0)
                   (nodes_of icons items))).
Proof.
  intros Hbuild Hfuel.
  rewrite <- (size_node_of icons _ "root") in Hfuel.
  pose proof (build_tree_repr (JObj ((key, JObj items0) :: items)) "root"
                (new_TreeBuilder Rectangle icons) h0) as Hrepr.
  rewrite build_tree_first_item in Hbuild, Hrepr.
  cbn [style_factory icon_family new_TreeBuilder] in Hrepr.
  apply pair_equal_spec in Hbuild as [Hbuild <-].
  apply pair_equal_spec in Hbuild as [<- _].
  rewrite node_of_first_item in Hrepr, Hfuel.
  rewrite (node_of_JObj icons items0 key) in Hrepr, Hfuel |- *.
  set (t0 := NContainer key (container_icon icons) (nodes_of icons items0))
    in *.
  inversion Hrepr as [ | ? ? ? cs ts Hroot Hcs ]; subst.
  rewrite list_lookup_middle in Hroot by done. injection Hroot as <-.
  inversion Hcs as [ | c0 ? cs' ? Hc0 _ ]; subst.
  inversion Hc0 as [ | ? ? ? gs ? Hfirst Hgs ]; subst.
  eexists. eapply rect_root_draws; eauto.
  - by apply list_lookup_middle.
  - rewrite insert_middle. apply repr_others_after_pop.
Qed.

Lemma row_width_ge max_len indent_len label_len :
  (max_len + 4 <= Z.of_nat (row_width max_len indent_len label_len))%Z.
Proof. unfold row_width. lia. Qed.

Lemma row_width_fits max_len indent_len label_len :
  (Z.of_nat (indent_len + label_len) <= max_len)%Z ->
  Z.of_nat (row_width max_len indent_len label_len) = (max_len + 4)%Z.
Proof. unfold row_width. lia. Qed.

(** The opener and the rows below it, against the first child of the root
    and the nodes below it with their depths (the root at depth 0): they
    are drawn as from depth 2 under the indent "│   ". *)
Lemma rect_first_rows max_len n0 i0 ts0 is_last :
  Forall2 (row_of max_len 4 2)
    (rect_opener_line n0 i0 max_len
     :: rect_children_lines "│   " is_last max_len ts0)
    (levels 1 (NContainer n0 i0 ts0)).
Proof.
  simpl levels. constructor.
  - exists 0. split; [done | apply len_rect_opener_line].
  - apply (rect_children_lines_rows max_len "│   " is_last ts0 2).
Qed.

Lemma rect_root_lines_app n i n0 i0 ts0 rest :
  let max_len := measure (NContainer n i (NContainer n0 i0 ts0 :: rest)) 0 in
  rect_root_lines n i n0 i0 ts0 rest
  = (rect_opener_line n0 i0 max_len
     :: rect_children_lines "│   " (no_more rest) max_len ts0)
    ++ rect_children_lines "│   " true max_len rest.
Proof. reflexivity. Qed.

(** X18: a rectangle render never falls short of the measured width.  On
    the tree built from a mapping whose first value is a mapping, every
    line the root draw prints has at least the measured width and the four
    columns of its two border glyphs. *)
Theorem rectangle_rows_reach_width icons key items0 items fuel h0 out root
    builder h :
  build_tree (JObj ((key, JObj items0) :: items)) "root"
    (new_TreeBuilder Rectangle icons) h0
  = (root, builder, h) ->
  json_nodes (JObj ((key, JObj items0) :: items)) <= fuel ->
  exists width h' lines,
    max_length fuel root 0 (World h out) = (Ok width, World h out)
    /\ draw (S fuel) root "r" true None (World h out)
       = (Ok tt, World h' (out ++ lines))
    /\ Forall (fun line => (width + 4 <= Z.of_nat (len line))%Z) lines.
Proof.
  intros Hbuild Hfuel.
  destruct (built_rect_draw _ _ _ _ _ _ out _ _ _ Hbuild Hfuel)
    as (h' & Hdraw).
  pose proof (build_tree_repr (JObj ((key, JObj items0) :: items)) "root"
                (new_TreeBuilder Rectangle icons) h0) as Hrepr.
  rewrite Hbuild in Hrepr.
  cbn [style_factory icon_family new_TreeBuilder] in Hrepr.
  rewrite <- (size_node_of icons _ "root") in Hfuel.
  rewrite node_of_first_item, (node_of_JObj icons items0 key) in Hrepr, Hfuel.
  eexists _, h', _. split; [by apply measures_all | ].
  split; [exact Hdraw | ].
  rewrite rect_root_lines_app. cbv zeta. apply Forall_app. split.
  - eapply Forall2_Forall_l; [apply rect_first_rows | ].
    apply Forall_forall. intros kx _ line (w & _ & ->). apply row_width_ge.
  - eapply Forall2_Forall_l;
      [apply (rect_children_lines_rows _ "│   " true (nodes_of icons items) 1)
      | ].
    apply Forall_forall. intros kx _ line (w & _ & ->). apply row_width_ge.
Qed.

Lemma rectangle_rows_reach_width_witness :
  exists width h' lines,
    max_length 3 0 0 (World rect_heap_ab []) = (Ok width, World rect_heap_ab [])
    /\ draw 4 0 "r" true None (World rect_heap_ab [])
       = (Ok tt, World h' ([] ++ lines))
    /\ Forall (fun line => (width + 4 <= Z.of_nat (len line))%Z) lines.
Proof.
  exact (rectangle_rows_reach_width default_icons "a" [("b", JInt 1)] [] 3 []
           [] 0 (set_root (new_TreeBuilder Rectangle default_icons) 0)
           rect_heap_ab eq_refl ltac:(simpl; lia)).
Defined.

Lemma levels_ge t : forall d kx, In kx (levels d t) -> d <= kx.1.
Proof.
  induction t as [n i ts IH | n i] using node_ind; intros d kx Hkx.
  - simpl in Hkx. destruct Hkx as [<- | Hkx]; [simpl; lia | ].
    apply in_flat_map in Hkx as (c & Hc & Hkx).
    rewrite Forall_forall in IH. apply list_elem_of_In in Hc.
    specialize (IH c Hc (S d) kx Hkx). lia.
  - simpl in Hkx. destruct Hkx as [<- | []]. simpl. lia.
Qed.

(** X19: the right border is aligned for a document with one top-level
    key and at most four levels below the root.  On the tree built from a
    mapping with a single item whose value is a mapping, when no node is
    deeper than 4 (the root at depth 0), every line the root draw prints is
    exactly as wide as the measured width and the four columns of its two
    border glyphs. *)
Theorem rectangle_rows_aligned icons key items0 fuel h0 out root builder h :
  build_tree (JObj [(key, JObj items0)]) "root"
    (new_TreeBuilder Rectangle icons) h0
  = (root, builder, h) ->
  json_nodes (JObj [(key, JObj items0)]) <= fuel ->
  Forall (fun kx => kx.1 <= 4)
    (levels 0 (node_of icons (JObj [(key, JObj items0)]) "root")) ->
  exists width h' lines,
    max_length fuel root 0 (World h out) = (Ok width, World h out)
    /\ draw (S fuel) root "r" true None (World h out)
       = (Ok tt, World h' (out ++ lines))
    /\ Forall (fun line => Z.of_nat (len line) = (width + 4)%Z) lines.
Proof.
  intros Hbuild Hfuel Hdepth.
  destruct (built_rect_draw _ _ _ _ _ _ out _ _ _ Hbuild Hfuel)
    as (h' & Hdraw).
  pose proof (build_tree_repr (JObj [(key, JObj items0)]) "root"
                (new_TreeBuilder Rectangle icons) h0) as Hrepr.
  rewrite Hbuild in Hrepr.
  cbn [style_factory icon_family new_TreeBuilder] in Hrepr.
  rewrite <- (size_node_of icons _ "root") in Hfuel.
  rewrite node_of_first_item, (node_of_JObj icons items0 key)
    in Hrepr, Hfuel, Hdepth.
  change (nodes_of icons []) with (@nil node) in *.
  eexists _, h', _. split; [by apply measures_all | ].
  split; [exact Hdraw | ].
  set (t := NContainer "root" (container_icon icons)
              [NContainer key (container_icon icons) (nodes_of icons items0)])
    in *.
  rewrite rect_root_lines_app. cbv zeta. fold t.
  simpl rect_children_lines at 2. rewrite app_nil_r.
  pose proof (rect_first_rows (measure t 0) key (container_icon icons)
                (nodes_of icons items0) (no_more (@nil node))) as Hrows.
  pose proof (measure_upper t 0 0%Z) as Hupper.
  assert (levels 0 t
          = (0, t)
            :: levels 1 (NContainer key (container_icon icons)
                           (nodes_of icons items0))) as Hlevels.
  { unfold t. simpl. by rewrite app_nil_r. }
  rewrite Hlevels in Hupper, Hdepth.
  apply Forall_cons in Hupper as [_ Hupper].
  apply Forall_cons in Hdepth as [_ Hdepth].
  eapply Forall2_Forall_l; [exact Hrows | ].
  apply Forall_forall. intros kx Hkx line (w & Hw & ->).
  rewrite Forall_forall in Hupper, Hdepth.
  pose proof (Hupper kx Hkx) as Hreach. pose proof (Hdepth kx Hkx) as Hk4.
  apply list_elem_of_In, levels_ge in Hkx.
  unfold reach in Hreach. apply row_width_fits. lia.
Qed.

Lemma rectangle_rows_aligned_witness :
  exists width h' lines,
    max_length 3 0 0 (World rect_heap_ab []) = (Ok width, World rect_heap_ab [])
    /\ draw 4 0 "r" true None (World rect_heap_ab [])
       = (Ok tt, World h' ([] ++ lines))
    /\ Forall (fun line => Z.of_nat (len line) = (width + 4)%Z) lines.
Proof.
  apply (rectangle_rows_aligned default_icons "a" [("b", JInt 1)] 3 []
           [] 0 (set_root (new_TreeBuilder Rectangle default_icons) 0)
           rect_heap_ab eq_refl ltac:(simpl; lia)).
  repeat constructor.
Defined.

(** ** The iterator over a built tree *)

Lemma yielded_app a b : yielded (a ++ b) = yielded a ++ yielded b.
Proof. unfold yielded. apply map_app. Qed.

Lemma iterates_in_order_children f ts :
  Forall (iterates_in_order f) ts ->
  forall h pre post stack,
    h = pre ++ layouts f (length pre) ts ++ post ->
    take_next h (sizes ts)
      (CompositeIterator (stack ++ reverse (child_addrs (length pre) ts)))
    = (yielded (seq (length pre) (sizes ts)), CompositeIterator stack).
Proof.
  induction 1 as [ | t rest Ht _ IH]; intros h pre post stack Hh.
  { simpl. by rewrite app_nil_r. }
  simpl child_addrs. rewrite reverse_cons, app_assoc.
  unfold sizes. simpl list_sum. rewrite take_next_add.
  simpl layouts in Hh. rewrite <- app_assoc in Hh.
  rewrite (Ht h pre _ _ Hh).
  specialize (IH h (pre ++ layout f (length pre) t) post stack).
  rewrite length_app, length_layout in IH.
  unfold sizes in IH. rewrite IH by (by rewrite <- app_assoc).
  by rewrite seq_app, yielded_app.
Qed.

Lemma iterates_in_order_all f t : iterates_in_order f t.
Proof.
  induction t as [n i ts IH | n i] using node_ind;
    intros h pre post stack Hh.
  - rewrite layout_container in Hh.
    cbn [size take_next]. rewrite has_next_snoc.
    unfold next. rewrite has_next_snoc, pop_snoc.
    assert (h !! length pre
            = Some (Container f n i (child_addrs (S (length pre)) ts)))
      as ->.
    { rewrite Hh. simpl. by apply list_lookup_middle. }
    pose proof (iterates_in_order_children f ts IH h
                  (pre ++ [Container f n i (child_addrs (S (length pre)) ts)])
                  post stack) as Hchildren.
    rewrite length_app in Hchildren. simpl length in Hchildren.
    rewrite Nat.add_1_r in Hchildren.
    fold (sizes ts). rewrite Hchildren; [done | ].
    by rewrite Hh, <- app_assoc.
  - cbn [size take_next]. rewrite has_next_snoc.
    unfold next. rewrite has_next_snoc, pop_snoc.
    assert (h !! length pre = Some (Leaf f n i)) as ->.
    { rewrite Hh. simpl. by apply list_lookup_middle. }
    done.
Qed.

(** X20: the iterator walks a built tree in the order the builder created
    it.  For the Container built from a mapping at the address [node], a
    fresh iterator yields, with [has_next] true each time, the addresses
    [node + 1], [node + 2], ... of all the objects the call created below
    it, in increasing order, and is exhausted after them. *)
Theorem iterator_follows_build_order items name self h0 out :
  let '(node, _, h) := build_tree (JObj items) name self h0 in
  exists it,
    create_iterator node (World h out) = (Ok it, World h out)
    /\ take_next h (json_nodes (JObj items) - 1) it
       = (yielded (seq (S node) (json_nodes (JObj items) - 1)),
          CompositeIterator []).
Proof.
  rewrite build_tree_layout.
  rewrite <- (size_node_of (icon_family self) (JObj items) name).
  rewrite node_of_JObj, layout_container.
  set (ts := nodes_of (icon_family self) items).
  set (h := h0 ++ _ :: _).
  assert (h !! length h0
          = Some (Container (style_factory self) name
                    (container_icon (icon_family self))
                    (child_addrs (S (length h0)) ts))) as Hnode.
  { by apply list_lookup_middle. }
  eexists. split.
  { unfold create_iterator. erewrite bind_Ok; [ | by apply deref_Ok].
    reflexivity. }
  replace (size (NContainer name (container_icon (icon_family self)) ts) - 1)
    with (sizes ts) by (unfold sizes; simpl; lia).
  pose proof (iterates_in_order_children (style_factory self) ts
                ltac:(apply Forall_forall; intros;
                      apply iterates_in_order_all)
                h (h0 ++ [Container (style_factory self) name
                            (container_icon (icon_family self))
                            (child_addrs (S (length h0)) ts)])
                [] []) as Hrun.
  rewrite length_app in Hrun. simpl length in Hrun.
  rewrite Nat.add_1_r in Hrun. simpl app in Hrun.
  rewrite <- Hrun.
  - unfold new_CompositeIterator.
    destruct (child_addrs (S (length h0)) ts); reflexivity.
  - subst h. by rewrite app_nil_r, <- app_assoc.
Qed.

(** ** Which rectangle row closes the box *)













